(** * OpenIFEM: the immersed-boundary FSI coupling driver ([source/fsi.cpp])
      and the command-line driver of a test program.

    The development embeds [FSI<dim>] function by function.  The deal.II
    library and the two solvers are collaborators of the code: they appear as
    the fields of an interface ([Collaborators]) and nothing is assumed about
    them unless a theorem says so.  [double] arithmetic is an interface too
    ([Scalar]): the structural theorems hold for any arithmetic, binary64
    included, and a theorem that needs a law of arithmetic names that law as a
    hypothesis. *)

From Stdlib Require Import ZArith QArith Qcanon String Floats Lia Lqa Psatz.
From stdpp Require Import base option list gmap strings.

Set Default Proof Using "Type".
Open Scope Z_scope.
Open Scope nat_scope.

(** ** [double] arithmetic *)

(** The operations on [double] the code uses.  [lit m e] is the literal
    [m]·10^[e] ([1e-12] is [lit 1 (-12)], the [int] constant [2] converted to
    [double] is [lit 2 0]); [flt a b] is [a < b]. *)
Class Scalar (double : Type) := {
  lit : Z → Z → double;
  fadd : double → double → double;
  fsub : double → double → double;
  fmul : double → double → double;
  fdiv : double → double → double;
  fneg : double → double;
  fabs : double → double;
  flt : double → double → bool
}.

(** ** Exceptions *)

(** What a [catch] clause can tell apart: an exception derived from
    [std::exception] (deal.II's are), carrying its [what()], or anything
    else. *)
Inductive exn : Type :=
| std_exception (what : string)
| unknown_exception.

(** A call either returns or throws. *)
Inductive result (A : Type) : Type :=
| Ok (a : A)
| Throw (e : exn).
Arguments Ok {A} a.
Arguments Throw {A} e.

#[global] Instance result_ret : MRet result := λ A a, Ok a.
#[global] Instance result_bind : MBind result := λ A B f m,
  match m with
  | Ok a => f a
  | Throw e => Throw e
  end.

(** A loop that may not terminate is run on fuel. *)
Inductive outcome (A : Type) : Type :=
| Done (a : A)
| Uncaught (e : exn)
| OutOfFuel.
Arguments Done {A} a.
Arguments Uncaught {A} e.
Arguments OutOfFuel {A}.

(** ** Tensors *)

(** [Point<dim>] and [Tensor<1,dim>] are lists of [dim] coordinates,
    [Tensor<2,dim>] and [SymmetricTensor<2,dim>] lists of [dim] rows.  A deal.II
    [Vector<double>] is only ever read by index here: a function. *)
Abbreviation Point double := (list double) (only parsing).
Abbreviation Tensor1 double := (list double) (only parsing).
Abbreviation Tensor2 double := (list (list double)) (only parsing).
Abbreviation SymmetricTensor double := (list (list double)) (only parsing).
Abbreviation Vector double := (nat → double) (only parsing).

Section tensors.
Context {double : Type} `{!Scalar double}.

Definition zero : double := lit 0 0.
Definition one : double := lit 1 0.

(** [t[i]] *)
Definition t1_get (t : Tensor1 double) (i : nat) : double :=
  default zero (t !! i).

(** [Point += Tensor<1>], [Point -= Tensor<1>], [a - b] *)
Definition t1_add (a b : Tensor1 double) : Tensor1 double := zip_with fadd a b.
Definition t1_sub (a b : Tensor1 double) : Tensor1 double := zip_with fsub a b.

(** [t / a] *)
Definition t1_div (t : Tensor1 double) (a : double) : Tensor1 double :=
  (λ x, fdiv x a) <$> t.

(** The contraction over one index, [Σ_j a_j b_j]. *)
Definition dot (a b : Tensor1 double) : double :=
  foldl fadd zero (zip_with fmul a b).

(** [Tensor<2> * Tensor<1>] and [SymmetricTensor<2> * Tensor<1>] *)
Definition t2_mul_t1 (m : Tensor2 double) (v : Tensor1 double) : Tensor1 double :=
  (λ row : list double, dot row v) <$> m.

(** A default-constructed [SymmetricTensor<2,dim>]. *)
Definition st_zero (dim : nat) : SymmetricTensor double :=
  replicate dim (replicate dim zero).

(** [t[i][j]] *)
Definition st_get (t : SymmetricTensor double) (i j : nat) : double :=
  t1_get (default [] (t !! i)) j.

Definition t2_set (i j : nat) (x : double) (t : Tensor2 double) : Tensor2 double :=
  match t !! i with
  | Some row => <[i := <[j := x]> row]> t
  | None => t
  end.

(** [t[i][j] = x] on a [SymmetricTensor]: the components (i,j) and (j,i)
    are one stored number. *)
Definition st_set (i j : nat) (x : double) (t : SymmetricTensor double)
  : SymmetricTensor double :=
  t2_set j i x (t2_set i j x t).

(** [Physics::Elasticity::StandardTensors<dim>::I] *)
Definition unit_symmetric_tensor (dim : nat) : SymmetricTensor double :=
  (λ i, (λ j, if decide (i = j) then one else zero) <$> seq 0 dim) <$> seq 0 dim.

(** [a * t], [s + t], [s - t] *)
Definition st_scale (a : double) (t : SymmetricTensor double) : SymmetricTensor double :=
  (λ row : list double, fmul a <$> row) <$> t.
Definition st_add (s t : SymmetricTensor double) : SymmetricTensor double :=
  zip_with (zip_with fadd) s t.
Definition st_sub (s t : SymmetricTensor double) : SymmetricTensor double :=
  zip_with (zip_with fsub) s t.
End tensors.

(** ** The data the driver works on *)

(** A face of a solid cell: [at_boundary()] and [boundary_id()]. *)
Record Face : Type := {
  at_boundary : bool;
  boundary_id : nat
}.

(** An active cell of the solid [dof_handler], through the accessors the
    driver calls: [vertex_index(v)], [vertex_dof_index(v, d)], [face(f)]. *)
Record SolidCell : Type := {
  vertex_index : nat → nat;
  vertex_dof_index : nat → nat → nat;
  face : nat → Face
}.

(** The types deal.II and the solvers keep to themselves: a fluid cell (its
    geometry and its degrees of freedom) and the members of the two solvers
    the driver never reads. *)
Class Opaque := {
  FluidCell : Type;
  FluidInternals : Type;
  SolidInternals : Type
}.

(** The per-cell data behind [cell_property.get_data(f_cell)[0]]:
    [indicator] and [get_mu()]. *)
Record CellProperty (double : Type) : Type := {
  indicator : Z;
  get_mu : double
}.
Arguments indicator {double} _.
Arguments get_mu {double} _.

(** [Solid::LinearElasticSolver<dim>], as far as the driver reaches into it.
    [solid_vertices] are the vertices of [triangulation] under their global
    index ([cell->vertex(v)] is the entry [vertex_index(v)]); [solid_cells]
    are the active cells in iteration order. *)
Record SolidSolver (double : Type) `{Opaque} : Type := {
  solid_vertices : list (Point double);
  solid_cells : list SolidCell;
  current_displacement : Vector double;
  current_acceleration : Vector double;
  stress : nat → nat → Vector double;
  n_face_q_points : nat;
  fluid_traction : list (Tensor1 double);
  solid_internals : SolidInternals
}.
Arguments solid_vertices {double _} _.
Arguments solid_cells {double _} _.
Arguments current_displacement {double _} _ _.
Arguments current_acceleration {double _} _ _.
Arguments stress {double _} _ _ _ _.
Arguments n_face_q_points {double _} _.
Arguments fluid_traction {double _} _.
Arguments solid_internals {double _} _.

(** [Fluid::NavierStokes<dim>], likewise.  [fluid_cells] pairs each active
    cell, in iteration order, with its entry of [cell_property];
    [n_q_points] is [volume_quad_formula.size()]. *)
Record FluidSolver (double : Type) `{Opaque} : Type := {
  fluid_cells : list (FluidCell * CellProperty double);
  n_q_points : nat;
  present_solution : Vector double;
  solution_increment : Vector double;
  fsi_stress : list (SymmetricTensor double);
  fsi_acceleration : list (Tensor1 double);
  fluid_internals : FluidInternals
}.
Arguments fluid_cells {double _} _.
Arguments n_q_points {double _} _.
Arguments present_solution {double _} _ _.
Arguments solution_increment {double _} _ _.
Arguments fsi_stress {double _} _.
Arguments fsi_acceleration {double _} _.
Arguments fluid_internals {double _} _.

(** [Parameters::AllParameters], the members the two programs read.
    [solid_dirichlet_bcs] is searched by boundary id ([find(id) == end()]);
    what it holds under an id plays no part here. *)
Record AllParameters (double : Type) : Type := {
  dimension : nat;
  end_time : double;
  time_step : double;
  output_interval : double;
  refinement_interval : double;
  global_refinement : nat;
  viscosity : double;
  solid_dirichlet_bcs : gmap nat nat
}.
Arguments dimension {double} _.
Arguments end_time {double} _.
Arguments time_step {double} _.
Arguments output_interval {double} _.
Arguments refinement_interval {double} _.
Arguments global_refinement {double} _.
Arguments viscosity {double} _.
Arguments solid_dirichlet_bcs {double} _.

(** Modelled from the spec: [Utils::Time] is declared in [utilities.h],
    which is not among the sources.  Spec 4.1: a controller that starts at
    t=0, whose [increment()] advances the current time by the step size. *)
Record Time (double : Type) : Type := {
  time_end : double;
  get_delta_t : double;
  time_current : double
}.
Arguments time_end {double} _.
Arguments get_delta_t {double} _.
Arguments time_current {double} _.

(** The members of [FSI<dim>]. *)
Record FSI (double : Type) `{Opaque} : Type := {
  fluid_solver : FluidSolver double;
  solid_solver : SolidSolver double;
  parameters : AllParameters double;
  time : Time double
}.
Arguments fluid_solver {double _} _.
Arguments solid_solver {double _} _.
Arguments parameters {double _} _.
Arguments time {double _} _.

(** ** The collaborators *)

(** deal.II and the two solvers, call by call.  The geometric queries on the
    solid take the vertices they are evaluated on as an argument, since
    [move_solid_mesh] changes them in place.

    - [point_inside vs cell p]: [cell->point_inside(p)];
    - [quadrature_point c q]: [fe_values.quadrature_point(q)] after
      [fe_values.reinit(c)], on the fluid's volume quadrature;
    - [get_function_*  c u q]: entry [q] of what
      [fe_values[extractor].get_function_*(u, out)] writes after
      [reinit(c)], for the velocity ([_v]) or the pressure ([_p]) extractor;
    - [face_quadrature_point vs cell f q], [normal_vector vs cell f q]:
      [fe_face_values] after [reinit(cell, f)], on the solid's face
      quadrature;
    - [*_point_value], [fluid_point_gradient]: [VectorTools::point_value] and
      [point_gradient] on the solid [dof_handler], the solid
      [dg_dof_handler] and the fluid [dof_handler]; they throw when the point
      is in no cell of the mesh;
    - the rest are the member functions of the solvers that [run] calls. *)
Class Collaborators (double : Type) `{Opaque} := {
  point_inside : list (Point double) → SolidCell → Point double → bool;
  quadrature_point : FluidCell → nat → Point double;
  get_function_symmetric_gradients_v :
    FluidCell → Vector double → nat → SymmetricTensor double;
  get_function_values_p : FluidCell → Vector double → nat → double;
  get_function_values_v : FluidCell → Vector double → nat → Tensor1 double;
  get_function_gradients_v : FluidCell → Vector double → nat → Tensor2 double;
  face_quadrature_point :
    list (Point double) → SolidCell → nat → nat → Point double;
  normal_vector : list (Point double) → SolidCell → nat → nat → Tensor1 double;
  solid_point_value :
    list (Point double) → list SolidCell → Vector double → Point double →
    result (Vector double);
  dg_point_value :
    list (Point double) → list SolidCell → Vector double → Point double →
    result (Vector double);
  fluid_point_value :
    list FluidCell → Vector double → Point double → result (Vector double);
  fluid_point_gradient :
    list FluidCell → Vector double → Point double →
    result (nat → Tensor1 double);
  refine_global : nat → FluidSolver double → result (FluidSolver double);
  fluid_setup_dofs : FluidSolver double → result (FluidSolver double);
  fluid_initialize_system : FluidSolver double → result (FluidSolver double);
  fluid_run_one_step : bool → FluidSolver double → result (FluidSolver double);
  solid_setup_dofs : SolidSolver double → result (SolidSolver double);
  solid_initialize_system : SolidSolver double → result (SolidSolver double);
  solid_run_one_step : bool → SolidSolver double → result (SolidSolver double)
}.

(** ** Loops *)

(** [for (k = i; k < i + n; ++k) body], threading the variables the body
    writes; a throwing body ends the loop. *)
Fixpoint for_range {St : Type} (body : nat → St → result St) (i n : nat) (s : St)
  : result St :=
  match n with
  | 0 => Ok s
  | S n' => s' ← body i s; for_range body (S i) n' s'
  end.

(** [for (cell = begin; cell != end; ++cell) body] *)
Fixpoint for_each {A St : Type} (body : A → St → result St) (l : list A) (s : St)
  : result St :=
  match l with
  | [] => Ok s
  | a :: l' => s' ← body a s; for_each body l' s'
  end.

(** ** What [run] does, call by call *)

(** The calls [run] makes, in the order it makes them.  A solver step is
    logged with the data the driver has stored in the solver for it. *)
Inductive event (double : Type) : Type :=
| ev_refine_global (n : nat)
| ev_fluid_setup_dofs
| ev_fluid_initialize_system
| ev_solid_setup_dofs
| ev_solid_initialize_system
| ev_find_solid_bc (traction : list (Tensor1 double))
| ev_solid_run_one_step (first_step : bool) (fluid_traction : list (Tensor1 double))
| ev_update_indicator
| ev_find_fluid_fsi (fsi_stress : list (SymmetricTensor double))
    (fsi_acceleration : list (Tensor1 double))
| ev_fluid_run_one_step (first_step : bool)
    (fsi_stress : list (SymmetricTensor double))
    (fsi_acceleration : list (Tensor1 double))
| ev_time_increment.
Arguments ev_refine_global {double} n.
Arguments ev_fluid_setup_dofs {double}.
Arguments ev_fluid_initialize_system {double}.
Arguments ev_solid_setup_dofs {double}.
Arguments ev_solid_initialize_system {double}.
Arguments ev_find_solid_bc {double} traction.
Arguments ev_solid_run_one_step {double} first_step fluid_traction.
Arguments ev_update_indicator {double}.
Arguments ev_find_fluid_fsi {double} fsi_stress fsi_acceleration.
Arguments ev_fluid_run_one_step {double} first_step fsi_stress fsi_acceleration.
Arguments ev_time_increment {double}.

(** ** [FSI<dim>] *)

Section fsi.
Context {double : Type} `{!Scalar double, !Opaque, !Collaborators double}.
Variable dim : nat.

(** [GeometryInfo<dim>::vertices_per_cell] and [faces_per_cell] *)
Definition vertices_per_cell : nat := 2 ^ dim.
Definition faces_per_cell : nat := 2 * dim.

(** Writing one member and keeping the others. *)
Definition set_solid_vertices (vs : list (Point double)) (s : SolidSolver double)
  : SolidSolver double :=
  {| solid_vertices := vs;
     solid_cells := solid_cells s;
     current_displacement := current_displacement s;
     current_acceleration := current_acceleration s;
     stress := stress s;
     n_face_q_points := n_face_q_points s;
     fluid_traction := fluid_traction s;
     solid_internals := solid_internals s |}.

Definition set_fluid_traction (traction : list (Tensor1 double))
    (s : SolidSolver double) : SolidSolver double :=
  {| solid_vertices := solid_vertices s;
     solid_cells := solid_cells s;
     current_displacement := current_displacement s;
     current_acceleration := current_acceleration s;
     stress := stress s;
     n_face_q_points := n_face_q_points s;
     fluid_traction := traction;
     solid_internals := solid_internals s |}.

Definition set_fluid_cells (cells : list (FluidCell * CellProperty double))
    (f : FluidSolver double) : FluidSolver double :=
  {| fluid_cells := cells;
     n_q_points := n_q_points f;
     present_solution := present_solution f;
     solution_increment := solution_increment f;
     fsi_stress := fsi_stress f;
     fsi_acceleration := fsi_acceleration f;
     fluid_internals := fluid_internals f |}.

Definition set_fsi_force (fsi_stress' : list (SymmetricTensor double))
    (fsi_acceleration' : list (Tensor1 double)) (f : FluidSolver double)
  : FluidSolver double :=
  {| fluid_cells := fluid_cells f;
     n_q_points := n_q_points f;
     present_solution := present_solution f;
     solution_increment := solution_increment f;
     fsi_stress := fsi_stress';
     fsi_acceleration := fsi_acceleration';
     fluid_internals := fluid_internals f |}.

Definition set_indicator (i : Z) (p : CellProperty double) : CellProperty double :=
  {| indicator := i; get_mu := get_mu p |}.

Definition with_solid (s : SolidSolver double) (fsi : FSI double) : FSI double :=
  {| fluid_solver := fluid_solver fsi;
     solid_solver := s;
     parameters := parameters fsi;
     time := time fsi |}.

Definition with_fluid (f : FluidSolver double) (fsi : FSI double) : FSI double :=
  {| fluid_solver := f;
     solid_solver := solid_solver fsi;
     parameters := parameters fsi;
     time := time fsi |}.

(** *** [Utils::Time] *)

(** Modelled from the spec: the controller [Utils::Time(end, step, ...)]
    starts at t=0 (spec 4.1). *)
Definition Time_ctor (end_time delta_t : double) : Time double :=
  {| time_end := end_time; get_delta_t := delta_t; time_current := zero |}.

(** Modelled from the spec: [increment()] advances the current time by the
    step size (spec 4.1). *)
Definition increment (t : Time double) : Time double :=
  {| time_end := time_end t;
     get_delta_t := get_delta_t t;
     time_current := fadd (time_current t) (get_delta_t t) |}.

(** *** The constructor (lines 4-20; the two lines it prints are left out) *)
Definition FSI_ctor (f : FluidSolver double) (s : SolidSolver double)
    (p : AllParameters double) : FSI double :=
  {| fluid_solver := f;
     solid_solver := s;
     parameters := p;
     time := Time_ctor (end_time p) (time_step p) |}.

(** *** [move_solid_mesh] (lines 31-62) *)

(** Lines 45-50: the displacement read at the degrees of freedom of local
    vertex [v] of [cell]. *)
Definition vertex_displacement (s : SolidSolver double) (cell : SolidCell)
    (v : nat) : Point double :=
  (λ d, current_displacement s (vertex_dof_index cell v d)) <$> seq 0 dim.

(** Lines 42-59, the body of the loop over [v].  The variables are
    [vertex_touched] and the vertices of the triangulation.  deal.II numbers
    the vertices below [n_vertices()]; an index beyond it, on which the
    source is undefined, changes nothing here. *)
Definition move_vertex (move_forward : bool) (s : SolidSolver double)
    (cell : SolidCell) (st : list bool * list (Point double)) (v : nat)
  : list bool * list (Point double) :=
  let i := vertex_index cell v in
  match st.1 !! i, st.2 !! i with
  | Some false, Some x =>
      let vertex_displacement := vertex_displacement s cell v in
      (<[i := true]> st.1,
       <[i := if move_forward
              then t1_add x vertex_displacement
              else t1_sub x vertex_displacement]> st.2)
  | _, _ => st
  end.

(** Lines 40-60, the loop over the vertices of one cell. *)
Definition move_cell (move_forward : bool) (s : SolidSolver double)
    (st : list bool * list (Point double)) (cell : SolidCell)
  : list bool * list (Point double) :=
  foldl (move_vertex move_forward s cell) st (seq 0 vertices_per_cell).

(** The vertices after the loop over the cells (lines 34-61). *)
Definition moved_vertices (move_forward : bool) (s : SolidSolver double)
  : list (Point double) :=
  let vertex_touched := replicate (length (solid_vertices s)) false in
  (foldl (move_cell move_forward s) (vertex_touched, solid_vertices s)
     (solid_cells s)).2.

Definition move_solid_mesh (move_forward : bool) (fsi : FSI double) : FSI double :=
  with_solid
    (set_solid_vertices (moved_vertices move_forward (solid_solver fsi))
       (solid_solver fsi))
    fsi.

(** *** [point_in_mesh] (lines 64-75), on the solid [dof_handler] *)
Fixpoint point_in_mesh (vertices : list (Point double)) (cells : list SolidCell)
    (point : Point double) : bool :=
  match cells with
  | [] => false
  | cell :: rest =>
      if point_inside vertices cell point then true
      else point_in_mesh vertices rest point
  end.

(** *** [update_indicator] (lines 77-106) *)

(** Lines 91-100: [is_solid] after the loop over the quadrature points
    [q], [q+1], ..., [q+n-1], which [break]s at the first point outside. *)
Fixpoint is_solid_from (s : SolidSolver double) (f_cell : FluidCell)
    (q n : nat) : bool :=
  match n with
  | 0 => true
  | S n' =>
      let q_point := quadrature_point f_cell q in
      if negb (point_in_mesh (solid_vertices s) (solid_cells s) q_point)
      then false
      else is_solid_from s f_cell (S q) n'
  end.

(** Lines 90-102, the body of the loop over the fluid cells. *)
Definition update_cell (s : SolidSolver double) (n_q_points : nat)
    (c : FluidCell * CellProperty double) : FluidCell * CellProperty double :=
  let is_solid := is_solid_from s c.1 0 n_q_points in
  (c.1, set_indicator (if is_solid then 1%Z else 0%Z) c.2).

Definition update_indicator (fsi : FSI double) : FSI double :=
  let fsi1 := move_solid_mesh true fsi in
  let n_q_points := n_q_points (fluid_solver fsi1) in
  let cells := update_cell (solid_solver fsi1) n_q_points
                 <$> fluid_cells (fluid_solver fsi1) in
  let fsi2 := with_fluid (set_fluid_cells cells (fluid_solver fsi1)) fsi1 in
  move_solid_mesh false fsi2.

(** *** [find_fluid_fsi] (lines 108-191) *)

(** Lines 158-167: the solid acceleration at [q_point]. *)
Definition solid_acc_at (s : SolidSolver double) (q_point : Point double)
  : result (Tensor1 double) :=
  tmp ← solid_point_value (solid_vertices s) (solid_cells s)
          (current_acceleration s) q_point;
  mret ((λ i, tmp i) <$> seq 0 dim).

(** Lines 168-180: the solid stress at [q_point], one interpolation per
    pair (i, j), each written into the symmetric tensor. *)
Definition solid_sigma_at (s : SolidSolver double) (q_point : Point double)
  : result (SymmetricTensor double) :=
  for_range (λ i solid_sigma,
    for_range (λ j solid_sigma,
      sigma_ij ← dg_point_value (solid_vertices s) (solid_cells s)
                   (stress s i j) q_point;
      mret (st_set i j (sigma_ij 0) solid_sigma))
    0 dim solid_sigma)
  0 dim (st_zero dim).

(** Lines 182-185: the fluid stress and acceleration at quadrature point
    [q] of [f_cell]. *)
Definition fluid_sigma_at (f : FluidSolver double) (f_cell : FluidCell)
    (mu : double) (q : nat) : SymmetricTensor double :=
  let sym_grad_v := get_function_symmetric_gradients_v f_cell (present_solution f) in
  let p := get_function_values_p f_cell (present_solution f) in
  st_add (st_scale (fneg (p q)) (unit_symmetric_tensor dim))
         (st_scale mu (sym_grad_v q)).

Definition fluid_acc_at (f : FluidSolver double) (dt : double)
    (f_cell : FluidCell) (q : nat) : Tensor1 double :=
  let v := get_function_values_v f_cell (present_solution f) in
  let grad_v := get_function_gradients_v f_cell (present_solution f) in
  let dv := get_function_values_v f_cell (solution_increment f) in
  t1_add (t1_div (dv q) dt) (t2_mul_t1 (grad_v q) (v q)).

(** Lines 156-188, the body of the loop over [q].  The variables are
    [fsi_stress] and [fsi_acceleration]. *)
Definition fsi_point (fsi : FSI double) (f_cell : FluidCell) (mu : double)
    (q : nat)
    (out : list (SymmetricTensor double) * list (Tensor1 double))
  : result (list (SymmetricTensor double) * list (Tensor1 double)) :=
  let dt := get_delta_t (time fsi) in
  let q_point := quadrature_point f_cell q in
  solid_acc ← solid_acc_at (solid_solver fsi) q_point;
  solid_sigma ← solid_sigma_at (solid_solver fsi) q_point;
  let fluid_sigma := fluid_sigma_at (fluid_solver fsi) f_cell mu q in
  let fluid_acc := fluid_acc_at (fluid_solver fsi) dt f_cell q in
  mret (out.1 ++ [st_sub fluid_sigma solid_sigma],
        out.2 ++ [t1_sub fluid_acc solid_acc]).

(** Lines 133-189, the body of the loop over the fluid cells. *)
Definition fsi_cell (fsi : FSI double) (c : FluidCell * CellProperty double)
    (out : list (SymmetricTensor double) * list (Tensor1 double))
  : result (list (SymmetricTensor double) * list (Tensor1 double)) :=
  if decide (indicator c.2 = 0%Z) then mret out
  else
    let mu := get_mu c.2 in
    for_range (fsi_point fsi c.1 mu) 0 (n_q_points (fluid_solver fsi)) out.

(** The two output vectors are cleared first (lines 112-113): what they
    hold on return does not depend on what they held. *)
Definition find_fluid_fsi (fsi : FSI double)
  : result (list (SymmetricTensor double) * list (Tensor1 double)) :=
  for_each (fsi_cell fsi) (fluid_cells (fluid_solver fsi)) ([], []).

(** *** [find_solid_bc] (lines 193-262) *)

(** Lines 243-251 *)
Definition sym_deformation_of (gradient : nat → Tensor1 double)
  : SymmetricTensor double :=
  foldl (λ t i,
    foldl (λ t j,
      st_set i j
        (fdiv (fadd (t1_get (gradient i) j) (t1_get (gradient j) i)) (lit 2 0))
        t)
    t (seq 0 dim))
  (st_zero dim) (seq 0 dim).

(** Lines 227-257, the body of the loop over [q]. *)
Definition traction_point (fsi : FSI double) (s_cell : SolidCell) (f q : nat)
    (traction : list (Tensor1 double)) : result (list (Tensor1 double)) :=
  let s := solid_solver fsi in
  let fl := fluid_solver fsi in
  let q_point := face_quadrature_point (solid_vertices s) s_cell f q in
  let normal := normal_vector (solid_vertices s) s_cell f q in
  value ← fluid_point_value (fluid_cells fl).*1 (present_solution fl) q_point;
  gradient ← fluid_point_gradient (fluid_cells fl).*1 (present_solution fl) q_point;
  let sym_deformation := sym_deformation_of gradient in
  let stress :=
    st_add (st_scale (fneg (value dim)) (unit_symmetric_tensor dim))
           (st_scale (viscosity (parameters fsi)) sym_deformation) in
  mret (traction ++ [t2_mul_t1 stress normal]).

(** Line 219-222: the face is at the boundary and has no Dirichlet
    condition. *)
Definition takes_traction (fsi : FSI double) (fc : Face) : bool :=
  at_boundary fc &&
  bool_decide (solid_dirichlet_bcs (parameters fsi) !! boundary_id fc = None).

(** Lines 218-259, the body of the loop over [f]. *)
Definition traction_face (fsi : FSI double) (s_cell : SolidCell) (f : nat)
    (traction : list (Tensor1 double)) : result (list (Tensor1 double)) :=
  if takes_traction fsi (face s_cell f)
  then for_range (traction_point fsi s_cell f) 0
         (n_face_q_points (solid_solver fsi)) traction
  else mret traction.

Definition traction_cell (fsi : FSI double) (s_cell : SolidCell)
    (traction : list (Tensor1 double)) : result (list (Tensor1 double)) :=
  for_range (traction_face fsi s_cell) 0 faces_per_cell traction.

Definition find_solid_bc (fsi : FSI double) : result (list (Tensor1 double)) :=
  for_each (traction_cell fsi) (solid_cells (solid_solver fsi)) [].

(** *** [initialize_system] (lines 22-29) and [run] (lines 264-286) *)

Definition with_time (t : Time double) (fsi : FSI double) : FSI double :=
  {| fluid_solver := fluid_solver fsi;
     solid_solver := solid_solver fsi;
     parameters := parameters fsi;
     time := t |}.

Definition initialize_system (st : FSI double * list (event double))
  : result (FSI double * list (event double)) :=
  let '(fsi, log) := st in
  f ← fluid_setup_dofs (fluid_solver fsi);
  let log := log ++ [ev_fluid_setup_dofs] in
  f ← fluid_initialize_system f;
  let log := log ++ [ev_fluid_initialize_system] in
  s ← solid_setup_dofs (solid_solver fsi);
  let log := log ++ [ev_solid_setup_dofs] in
  s ← solid_initialize_system s;
  let log := log ++ [ev_solid_initialize_system] in
  mret (with_solid s (with_fluid f fsi), log).

(** Lines 272-284, the body of the [while] loop. *)
Definition cycle (first_step : bool) (st : FSI double * list (event double))
  : result (FSI double * list (event double)) :=
  let '(fsi, log) := st in
  traction ← find_solid_bc fsi;
  let log := log ++ [ev_find_solid_bc traction] in
  let fsi := with_solid (set_fluid_traction traction (solid_solver fsi)) fsi in
  let log := log ++ [ev_solid_run_one_step first_step
                       (fluid_traction (solid_solver fsi))] in
  s ← solid_run_one_step first_step (solid_solver fsi);
  let fsi := with_solid s fsi in
  let log := log ++ [ev_update_indicator] in
  let fsi := update_indicator fsi in
  force ← find_fluid_fsi fsi;
  let log := log ++ [ev_find_fluid_fsi force.1 force.2] in
  let fsi := with_fluid (set_fsi_force force.1 force.2 (fluid_solver fsi)) fsi in
  let log := log ++ [ev_fluid_run_one_step first_step
                       (fsi_stress (fluid_solver fsi))
                       (fsi_acceleration (fluid_solver fsi))] in
  f ← fluid_run_one_step first_step (fluid_solver fsi);
  let fsi := with_fluid f fsi in
  let log := log ++ [ev_time_increment] in
  mret (with_time (increment (time fsi)) fsi, log).

(** Line 270: [time.end() - time.current() > 1e-12] *)
Definition not_finished (t : Time double) : bool :=
  flt (lit 1 (-12)) (fsub (time_end t) (time_current t)).

(** The [while] loop, [fuel] iterations at most. *)
Fixpoint run_loop (fuel : nat) (first_step : bool)
    (st : FSI double * list (event double))
  : outcome (FSI double * list (event double)) :=
  match fuel with
  | 0 => OutOfFuel
  | S fuel' =>
      if not_finished (time st.1) then
        match cycle first_step st with
        | Ok st' => run_loop fuel' false st'
        | Throw e => Uncaught e
        end
      else Done st
  end.

Definition run (fuel : nat) (fsi : FSI double)
  : outcome (FSI double * list (event double)) :=
  let n := global_refinement (parameters fsi) in
  match refine_global n (fluid_solver fsi) with
  | Throw e => Uncaught e
  | Ok f =>
      match initialize_system (with_fluid f fsi, [ev_refine_global n]) with
      | Throw e => Uncaught e
      | Ok st => run_loop fuel true st
      end
  end.
End fsi.

(** ** The command-line driver ([main], lines 62-144 of the test program) *)

(** What [main] calls: the constructor of [MPI_InitFinalize], the
    constructor of [AllParameters] on the name of the input file, and lines
    96-108, which build the mesh and the solver, run it and take the maximum
    of the velocity block.  [exc_message_what msg] and
    [exc_not_implemented_what] are the [what()] of deal.II's
    [ExcMessage(msg)] and [ExcNotImplemented()], which derive from
    [std::exception]. *)
Class Harness (double : Type) := {
  mpi_init : list string → result unit;
  read_parameters : string → result (AllParameters double);
  scnsim_max_velocity : AllParameters double → result double;
  exc_message_what : string → string;
  exc_not_implemented_what : string
}.

Section main.
Context {double : Type} `{!Scalar double, !Harness double}.

(** Lines 70-74: the name of the input file. *)
Definition infile_of (argv : list string) : string :=
  let infile := "parameters.prm"%string in
  if decide (1 < length argv) then default infile (argv !! 1) else infile.

(** Lines 68-116, the [try] block. *)
Definition main_try (argv : list string) : result unit :=
  _ ← mpi_init argv;
  params ← read_parameters (infile_of argv);
  if decide (dimension params = 2) then
    vmax ← scnsim_max_velocity params;
    let verror := fabs vmax in
    if flt verror (lit 5 (-2)) then mret ()
    else Throw (std_exception (exc_message_what "Maximum velocity is incorrect!"))
  else Throw (std_exception exc_not_implemented_what).

(** [std::endl] *)
Definition endl : string := String (Ascii.ascii_of_nat 10) EmptyString.

Definition rule : string :=
  "----------------------------------------------------"%string.

(** What the two [catch] clauses write to [std::cerr]. *)
Definition diagnostic (e : exn) : string :=
  match e with
  | std_exception what =>
      endl +:+ endl +:+ rule +:+ endl +:+
      "Exception on processing: " +:+ endl +:+
      what +:+ endl +:+ "Aborting!" +:+ endl +:+ rule +:+ endl
  | unknown_exception =>
      endl +:+ endl +:+ rule +:+ endl +:+
      "Unknown exception!" +:+ endl +:+ "Aborting!" +:+ endl +:+ rule +:+ endl
  end.

(** The exit code and what [main] itself has written to [std::cerr]. *)
Definition main (argv : list string) : Z * string :=
  match main_try argv with
  | Ok _ => (0%Z, ""%string)
  | Throw e => (1%Z, diagnostic e)
  end.
End main.

(** ** The fields of the test program (lines 18-60 and 80-92) *)

(** [SigmaPMLField<dim>]: its two private members. *)
Record SigmaPMLField (double : Type) : Type := {
  SigmaPMLMax : double;
  PMLLength : double
}.
Arguments SigmaPMLMax {double} _.
Arguments PMLLength {double} _.

Section fields.
Context {double : Type} `{!Scalar double}.

(** [pow] and [exp] of [<cmath>]. *)
Variable pow : double → double → double.
Variable exp : double → double.

(** [SigmaPMLField<dim>::value] (lines 37-50).  The [int] exponent 4 is
    converted to [double]. *)
Definition SigmaPMLField_value (F : SigmaPMLField double) (p : Point double)
    (component : nat) : double :=
  let SigmaPML := lit 0 0 in
  let boundary := lit 14 (-1) in
  if flt (fsub boundary (PMLLength F)) (t1_get p 0)
  then fmul (SigmaPMLMax F)
         (pow (fdiv (fsub (fadd (t1_get p 0) (PMLLength F)) boundary)
                    (PMLLength F))
              (lit 4 0))
  else SigmaPML.

(** [SigmaPMLField<dim>::value_list] (lines 52-60): [values[i]] is written
    for every index of [points]; [value] is called with its default
    component.  Where [values] is shorter than [points] the source writes
    out of bounds; here nothing is written there. *)
Definition SigmaPMLField_value_list (F : SigmaPMLField double)
    (points : list (Point double)) (values : list double) (component : nat)
  : list double :=
  foldl (λ values i,
           match points !! i with
           | Some p => <[i := SigmaPMLField_value F p 0]> values
           | None => values
           end)
        values (seq 0 (length points)).

(** Lines 84-86, the inner lambda of [gaussian_pulse]. *)
Definition time_value (t : double) : double :=
  fmul (lit 6 0)
    (exp (fmul (fneg (lit 5 (-1)))
               (pow (fdiv (fsub t (lit 5 (-7))) (lit 15 (-8))) (lit 2 0)))).

(** Lines 80-92, the lambda [gaussian_pulse], which captures
    [dt = params.time_step]. *)
Definition gaussian_pulse (dt : double) (p : Point double) (component : nat)
    (time : double) : double :=
  if bool_decide (component = 0) && flt (fabs (t1_get p 0)) (lit 1 (-10))
  then fsub (time_value time) (time_value (fsub time dt))
  else lit 0 0.
End fields.

(** ** Two arithmetics *)

(** Exact arithmetic on the rationals. *)
#[global] Instance Qc_scalar : Scalar Qc := {|
  lit m e := Q2Qc (inject_Z m * Qpower (10 # 1) e);
  fadd := Qcplus;
  fsub := Qcminus;
  fmul := Qcmult;
  fdiv := Qcdiv;
  fneg := Qcopp;
  fabs x := if bool_decide (x < 0)%Qc then Qcopp x else x;
  flt a b := bool_decide (a < b)%Qc
|}.

(** [pow] on the rationals, for an exponent that is a natural number (of
    another exponent the integer part is taken). *)
Definition Qc_pow (x y : Qc) : Qc :=
  Qcpower x (Z.abs_nat (Qnum y / Zpos (Qden y))).

(** IEEE 754 binary64, the arithmetic of the compiled code.  The literal
    [m]·10^[e] is rounded to nearest when [m] and 10^|[e]| are integers that
    binary64 holds exactly, as they are for every literal of the sources. *)
Definition float_of_Z (m : Z) : float :=
  match m with
  | Z0 => 0%float
  | Zpos _ => PrimFloat.of_uint63 (Uint63.of_Z m)
  | Zneg p => PrimFloat.opp (PrimFloat.of_uint63 (Uint63.of_Z (Zpos p)))
  end.

#[global] Instance binary64_scalar : Scalar float := {|
  lit m e :=
    if (0 <=? e)%Z
    then PrimFloat.mul (float_of_Z m) (float_of_Z (10 ^ e))
    else PrimFloat.div (float_of_Z m) (float_of_Z (10 ^ (- e)));
  fadd := PrimFloat.add;
  fsub := PrimFloat.sub;
  fmul := PrimFloat.mul;
  fdiv := PrimFloat.div;
  fneg := PrimFloat.opp;
  fabs := PrimFloat.abs;
  flt := PrimFloat.ltb
|}.

(** ** A small configuration to run the model on *)

(** One square solid cell over a row of four square fluid cells, in two
    dimensions, for either arithmetic.  An interpolation on the solid
    throws outside the solid cells when [strict] is set, as deal.II's does,
    and extrapolates when it is not. *)
Module Toy.
Section toy.
Context {double : Type} `{!Scalar double}.

Definition opaque : Opaque :=
  {| FluidCell := nat; FluidInternals := unit; SolidInternals := unit |}.
#[local] Existing Instance opaque.

Definition num (n : nat) : double := lit (Z.of_nat n) 0.

(** [a <= x <= b] *)
Definition between (a x b : double) : bool := negb (flt x a) && negb (flt b x).

(** The box spanned by the first and the last vertex of the cell. *)
Definition in_box (vs : list (list double)) (cell : SolidCell) (p : list double)
  : bool :=
  let lo := default [] (vs !! vertex_index cell 0) in
  let hi := default [] (vs !! vertex_index cell 3) in
  between (t1_get lo 0) (t1_get p 0) (t1_get hi 0) &&
  between (t1_get lo 1) (t1_get p 1) (t1_get hi 1).

Definition in_boxes (vs : list (list double)) (cells : list SolidCell)
    (p : list double) : bool :=
  existsb (λ cell, in_box vs cell p) cells.

Definition not_available : exn := std_exception "ExcPointNotAvailableHere".

(** The two vertices of face [f]. *)
Definition face_vertices (f : nat) : nat * nat :=
  match f with
  | 0 => (0, 2)
  | 1 => (1, 3)
  | 2 => (0, 1)
  | _ => (2, 3)
  end.

Definition midpoint (a b : list double) : list double :=
  zip_with (λ x y, fdiv (fadd x y) (lit 2 0)) a b.

Definition outward (f : nat) : list double :=
  match f with
  | 0 => [lit (-1) 0; lit 0 0]
  | 1 => [lit 1 0; lit 0 0]
  | 2 => [lit 0 0; lit (-1) 0]
  | _ => [lit 0 0; lit 1 0]
  end.

Definition collaborators (strict : bool) : Collaborators double :=
  {| point_inside := in_box;
     quadrature_point c q :=
       [fadd (num c) (if decide (q = 0) then lit 25 (-2) else lit 75 (-2));
        lit 5 (-1)];
     get_function_symmetric_gradients_v c u q :=
       let mid := fdiv (fadd (u (c + 1)) (u (c + 2))) (lit 2 0) in
       [[u c; mid]; [mid; u (c + 3)]];
     get_function_values_p c u q := u (c + q);
     get_function_values_v c u q := [u (2 * c + q); u (2 * c + q + 1)];
     get_function_gradients_v c u q := [[u c; u (c + 1)]; [u (c + 2); u (c + 3)]];
     face_quadrature_point vs cell f q :=
       midpoint (default [] (vs !! vertex_index cell (face_vertices f).1))
                (default [] (vs !! vertex_index cell (face_vertices f).2));
     normal_vector vs cell f q := outward f;
     solid_point_value vs cells u x :=
       if strict && negb (in_boxes vs cells x) then Throw not_available else Ok u;
     dg_point_value vs cells u x :=
       if strict && negb (in_boxes vs cells x) then Throw not_available else Ok u;
     fluid_point_value cells u x :=
       if strict && negb (between (num 0) (t1_get x 0) (num (length cells)))
       then Throw not_available else Ok u;
     fluid_point_gradient cells u x :=
       if strict && negb (between (num 0) (t1_get x 0) (num (length cells)))
       then Throw not_available else Ok (λ i, [u i; u (i + 1)]);
     refine_global n f := Ok f;
     fluid_setup_dofs f := Ok f;
     fluid_initialize_system f := Ok f;
     fluid_run_one_step first_step f := Ok f;
     solid_setup_dofs s := Ok s;
     solid_initialize_system s := Ok s;
     solid_run_one_step first_step s := Ok s |}.

(** The unit square, displaced by [shift] along x; the face x = 0 has a
    Dirichlet condition. *)
Definition unit_cell : SolidCell :=
  {| vertex_index v := v;
     vertex_dof_index v d := 2 * v + d;
     face f := {| at_boundary := true; boundary_id := f |} |}.

Definition solid (shift : double) : SolidSolver double :=
  {| solid_vertices := [[num 0; num 0]; [num 1; num 0]; [num 0; num 1]; [num 1; num 1]];
     solid_cells := [unit_cell];
     current_displacement i := if Nat.even i then shift else lit 0 0;
     current_acceleration i := num i;
     stress i j k := num (10 * i + j);
     n_face_q_points := 1;
     fluid_traction := [];
     solid_internals := () |}.

(** Four fluid cells with the given indicators and viscosity 2. *)
Definition fluid (indicators : list Z) : FluidSolver double :=
  {| fluid_cells :=
       imap (λ c i, (c, {| indicator := i; get_mu := num 2 |})) indicators;
     n_q_points := 2;
     present_solution i := num i;
     solution_increment i := num 1;
     fsi_stress := [];
     fsi_acceleration := [];
     fluid_internals := () |}.

(** One solid cell over [x0, x1] x [y0, y1], displaced by ([dx], [dy]). *)
Definition solid_box (x0 x1 y0 y1 dx dy : double) : SolidSolver double :=
  {| solid_vertices := [[x0; y0]; [x1; y0]; [x0; y1]; [x1; y1]];
     solid_cells := [unit_cell];
     current_displacement i := if Nat.even i then dx else dy;
     current_acceleration i := num i;
     stress i j k := num (10 * i + j);
     n_face_q_points := 1;
     fluid_traction := [];
     solid_internals := () |}.

(** The same fluid under a quadrature that has no point, and a solid mesh
    that has no cell. *)
Definition fluid_no_quadrature (indicators : list Z) : FluidSolver double :=
  {| fluid_cells := fluid_cells (fluid indicators);
     n_q_points := 0;
     present_solution := present_solution (fluid indicators);
     solution_increment := solution_increment (fluid indicators);
     fsi_stress := [];
     fsi_acceleration := [];
     fluid_internals := () |}.

Definition solid_no_cells : SolidSolver double :=
  {| solid_vertices := [];
     solid_cells := [];
     current_displacement i := lit 0 0;
     current_acceleration i := lit 0 0;
     stress i j k := lit 0 0;
     n_face_q_points := 1;
     fluid_traction := [];
     solid_internals := () |}.

Definition params (end_time time_step : double) : AllParameters double :=
  {| dimension := 2;
     end_time := end_time;
     time_step := time_step;
     output_interval := time_step;
     refinement_interval := time_step;
     global_refinement := 0;
     viscosity := num 1;
     solid_dirichlet_bcs := {[0 := 3]} |}.

(** A state of the driver: three steps of [time_step] to go, the solid
    shifted by [shift], the fluid cells with [indicators]. *)
Definition state_with (time_step shift : double) (indicators : list Z)
  : FSI double :=
  FSI_ctor (fluid indicators) (solid shift)
    (params (fmul (lit 3 0) time_step) time_step).

(** The same with steps of a tenth. *)
Definition state (shift : double) (indicators : list Z) : FSI double :=
  state_with (lit 1 (-1)) shift indicators.
(** A command line: the parameters are read from "parameters.prm" (two
    dimensions) or from "3d.prm" (three), no other file exists, and the
    solver ends with a maximal velocity of 0.01. *)
Definition with_dimension (d : nat) (p : AllParameters double)
  : AllParameters double :=
  {| dimension := d;
     end_time := end_time p;
     time_step := time_step p;
     output_interval := output_interval p;
     refinement_interval := refinement_interval p;
     global_refinement := global_refinement p;
     viscosity := viscosity p;
     solid_dirichlet_bcs := solid_dirichlet_bcs p |}.

Definition harness : Harness double :=
  {| mpi_init argv := Ok ();
     read_parameters infile :=
       if decide (infile = "parameters.prm"%string)
       then Ok (params (lit 3 (-1)) (lit 1 (-1)))
       else if decide (infile = "3d.prm"%string)
       then Ok (with_dimension 3 (params (lit 3 (-1)) (lit 1 (-1))))
       else Throw (std_exception "no such file");
     scnsim_max_velocity p := Ok (lit 1 (-2));
     exc_message_what msg := msg;
     exc_not_implemented_what := "ExcNotImplemented" |}.

(** The same command line, the solver ending with a maximal velocity of
    [vmax]. *)
Definition harness_ending_with (vmax : double) : Harness double :=
  {| mpi_init argv := Ok ();
     read_parameters infile := Ok (params (lit 3 (-1)) (lit 1 (-1)));
     scnsim_max_velocity p := Ok vmax;
     exc_message_what msg := msg;
     exc_not_implemented_what := "ExcNotImplemented" |}.
End toy.
End Toy.

(** ** The vocabulary of the properties *)

Section vocabulary.
Context {double : Type} `{!Scalar double, !Opaque, !Collaborators double}.
Variable dim : nat.

(** The pairs (cell, local vertex) in the order the two loops visit them. *)
Definition visits (cells : list SolidCell) : list (SolidCell * nat) :=
  cell ← cells; (λ v, (cell, v)) <$> seq 0 (vertices_per_cell dim).

(** The first visit that reaches the vertex with global index [i]. *)
Fixpoint first_visit (vs : list (SolidCell * nat)) (i : nat)
  : option (SolidCell * nat) :=
  match vs with
  | [] => None
  | r :: vs' =>
      if decide (vertex_index r.1 r.2 = i) then Some r else first_visit vs' i
  end.

(** One vertex, moved once by the displacement read at that visit, or left
    alone when no cell has it. *)
Definition move_point (move_forward : bool) (s : SolidSolver double)
    (r : option (SolidCell * nat)) (x : Point double) : Point double :=
  match r with
  | None => x
  | Some r =>
      if move_forward
      then t1_add x (vertex_displacement dim s r.1 r.2)
      else t1_sub x (vertex_displacement dim s r.1 r.2)
  end.

(** The vertices after moving forward and then backward. *)
Definition there_and_back (s : SolidSolver double) : list (Point double) :=
  moved_vertices dim false (set_solid_vertices (moved_vertices dim true s) s).

(** The solid points that [point_in_mesh] accepts: those inside some
    cell. *)
Definition contains (vertices : list (Point double)) (cells : list SolidCell)
    (point : Point double) : Prop :=
  ∃ cell, cell ∈ cells ∧ point_inside vertices cell point = true.

(** A tensor of [dim] rows of [dim] components. *)
Definition shaped (t : list (list double)) : Prop :=
  length t = dim ∧ Forall (λ row, length row = dim) t.

(** The double loop [for i < dim, for j < dim: t[i][j] = x i j], started
    from the zero tensor. *)
Definition sym_fill (x : nat → nat → double) : SymmetricTensor double :=
  foldl (λ t i, foldl (λ t j, st_set i j (x i j) t) t (seq 0 dim))
        (st_zero dim) (seq 0 dim).

(** The same writes, one list of index pairs. *)
Definition index_pairs (rows : list nat) : list (nat * nat) :=
  i ← rows; (λ j, (i, j)) <$> seq 0 dim.

(** The fluid cells [find_fluid_fsi] does not skip. *)
Definition immersed_cells (f : FluidSolver double)
  : list (FluidCell * CellProperty double) :=
  filter (λ c, indicator c.2 ≠ 0%Z) (fluid_cells f).

(** [fluid_stress - solid_stress] at quadrature point [q] of the fluid cell
    [c], with [fluid_stress = -p I + mu sym(grad v)]. *)
Definition stress_discrepancy (fsi : FSI double)
    (c : FluidCell * CellProperty double) (q : nat)
    (solid_stress : SymmetricTensor double) : SymmetricTensor double :=
  let u := present_solution (fluid_solver fsi) in
  let p := get_function_values_p c.1 u q in
  let sym_grad_v := get_function_symmetric_gradients_v c.1 u q in
  let fluid_stress :=
    st_add (st_scale (fneg p) (unit_symmetric_tensor dim))
           (st_scale (get_mu c.2) sym_grad_v) in
  st_sub fluid_stress solid_stress.

(** [fluid_accel - solid_accel] there, with
    [fluid_accel = dv/dt + (grad v) v]. *)
Definition accel_discrepancy (fsi : FSI double)
    (c : FluidCell * CellProperty double) (q : nat)
    (solid_accel : Tensor1 double) : Tensor1 double :=
  let u := present_solution (fluid_solver fsi) in
  let v := get_function_values_v c.1 u q in
  let grad_v := get_function_gradients_v c.1 u q in
  let dv := get_function_values_v c.1 (solution_increment (fluid_solver fsi)) q in
  let dt := get_delta_t (time fsi) in
  let fluid_accel := t1_add (t1_div dv dt) (t2_mul_t1 grad_v v) in
  t1_sub fluid_accel solid_accel.

(** The solid acceleration, from the interpolated vector. *)
Definition solid_accel_of (acc : Vector double) : Tensor1 double :=
  (λ i, acc i) <$> seq 0 dim.

(** The solid stress, from the interpolated components: [sig i j] is what
    interpolating [stress[i][j]] gives.  The symmetric tensor keeps, for the
    components (i, j) and (j, i), the one of the lower triangle. *)
Definition solid_stress_of (sig : nat → nat → Vector double)
  : SymmetricTensor double :=
  (λ i, (λ j, sig (i `max` j) (i `min` j) 0) <$> seq 0 dim) <$> seq 0 dim.

(** Every quadrature point of the fluid cell [c] is in the solid mesh with
    vertices [vertices]. *)
Definition all_points_inside (vertices : list (Point double))
    (cells : list SolidCell) (n_q_points : nat)
    (c : FluidCell * CellProperty double) : bool :=
  forallb (λ q, point_in_mesh vertices cells (quadrature_point c.1 q))
          (seq 0 n_q_points).

(** The faces of the solid cells in the order of the two loops of
    [find_solid_bc], and those among them that are at the boundary with a
    boundary id that has no entry in [solid_dirichlet_bcs]. *)
Definition solid_faces (s : SolidSolver double) : list (SolidCell * nat) :=
  cell ← solid_cells s; (λ f, (cell, f)) <$> seq 0 (faces_per_cell dim).

Definition traction_faces (fsi : FSI double) : list (SolidCell * nat) :=
  filter (λ cf, at_boundary (face cf.1 cf.2) = true ∧
                solid_dirichlet_bcs (parameters fsi)
                  !! boundary_id (face cf.1 cf.2) = None)
         (solid_faces (solid_solver fsi)).

(** [sym(grad v)] from the interpolated gradients of the components of the
    fluid solution: the symmetric tensor keeps, for (i, j) and (j, i), what
    was computed for the lower triangle. *)
Definition sym_gradient_of (gradient : nat → Tensor1 double)
  : SymmetricTensor double :=
  (λ i, (λ j,
     let r := i `max` j in
     let c := i `min` j in
     fdiv (fadd (t1_get (gradient r) c) (t1_get (gradient c) r)) (lit 2 0))
    <$> seq 0 dim) <$> seq 0 dim.

(** [(-p I + viscosity sym(grad v)) normal], the pressure being component
    [dim] of the interpolated fluid solution. *)
Definition traction_of (fsi : FSI double) (value : Vector double)
    (gradient : nat → Tensor1 double) (normal : Tensor1 double)
  : Tensor1 double :=
  let p := value dim in
  let fluid_stress :=
    st_add (st_scale (fneg p) (unit_symmetric_tensor dim))
           (st_scale (viscosity (parameters fsi)) (sym_gradient_of gradient)) in
  t2_mul_t1 fluid_stress normal.

(** What [run] logs before the loop: line 267, then [initialize_system]. *)
Definition prologue (n : nat) : list (event double) :=
  [ev_refine_global n; ev_fluid_setup_dofs; ev_fluid_initialize_system;
   ev_solid_setup_dofs; ev_solid_initialize_system].

(** One full pass of the loop: the traction is found and given to the solid
    solver, which steps; the indicator is updated; the force is found and
    given to the fluid solver, which steps; the time is incremented. *)
Definition is_cycle (first_step : bool) (evs : list (event double)) : Prop :=
  ∃ traction fsi_stress fsi_acceleration,
    evs = [ev_find_solid_bc traction;
           ev_solid_run_one_step first_step traction;
           ev_update_indicator;
           ev_find_fluid_fsi fsi_stress fsi_acceleration;
           ev_fluid_run_one_step first_step fsi_stress fsi_acceleration;
           ev_time_increment].

(** [n] passes in a row, the first with [first_step], the others with
    [false]. *)
Fixpoint is_cycles (n : nat) (first_step : bool) (evs : list (event double))
  : Prop :=
  match n with
  | 0 => evs = []
  | S n' => ∃ c rest, evs = c ++ rest ∧ is_cycle first_step c ∧
                      is_cycles n' false rest
  end.

(** A call that returns. *)
Definition returns {A : Type} (r : result A) : Prop := ∃ a, r = Ok a.

(** No call to a collaborator throws. *)
Definition never_throws : Prop :=
  (∀ vs cells u x, returns (solid_point_value vs cells u x)) ∧
  (∀ vs cells u x, returns (dg_point_value vs cells u x)) ∧
  (∀ cells u x, returns (fluid_point_value cells u x)) ∧
  (∀ cells u x, returns (fluid_point_gradient cells u x)) ∧
  (∀ n f, returns (refine_global n f)) ∧
  (∀ f, returns (fluid_setup_dofs f)) ∧
  (∀ f, returns (fluid_initialize_system f)) ∧
  (∀ b f, returns (fluid_run_one_step b f)) ∧
  (∀ s, returns (solid_setup_dofs s)) ∧
  (∀ s, returns (solid_initialize_system s)) ∧
  (∀ b s, returns (solid_run_one_step b s)).

(** What [run] does before its loop (lines 267-268): the state and the log
    the loop starts with. *)
Definition loop_entry (fsi : FSI double)
  : result (FSI double * list (event double)) :=
  let n := global_refinement (parameters fsi) in
  f ← refine_global n (fluid_solver fsi);
  initialize_system (with_fluid f fsi, [ev_refine_global n]).

(** [first_step] at the head of the loop of [run] after [k] passes. *)
Definition first_step_after (k : nat) : bool :=
  match k with 0 => true | S _ => false end.

(** The state at the head of the loop after [k] full passes from [st], the
    first one with [first_step]: each pass is entered with the guard true
    and comes to its end.  There is none when the guard stops the loop
    earlier or a pass throws. *)
Fixpoint after_passes (k : nat) (first_step : bool)
    (st : FSI double * list (event double))
  : option (FSI double * list (event double)) :=
  match k with
  | 0 => Some st
  | S k' =>
      if not_finished (time st.1) then
        match cycle dim first_step st with
        | Ok st' => after_passes k' false st'
        | Throw _ => None
        end
      else None
  end.

End vocabulary.

(** * Properties *)

(** ** Loops *)

Section loops.
Context {A St : Type}.

Lemma for_range_snoc (body : nat → St → result St) i n s :
  for_range body i (S n) s = s' ← for_range body i n s; body (i + n) s'.
Proof.
  revert i s. induction n as [|n IH]; intros i s.
  - simpl. rewrite Nat.add_0_r. by destruct (body i s).
  - change (for_range body i (S (S n)) s)
      with (s' ← body i s; for_range body (S i) (S n) s').
    destruct (body i s) as [s1|e] eqn:E; simpl; rewrite E; simpl; [|done].
    rewrite <- Nat.add_succ_comm. apply IH.
Qed.

(** A range loop is a loop over [seq]. *)
Lemma for_range_seq (body : nat → St → result St) i n s :
  for_range body i n s = for_each body (seq i n) s.
Proof.
  revert i s. induction n as [|n IH]; intros i s; [done|].
  simpl. destruct (body i s); simpl; [apply IH|done].
Qed.

Lemma for_each_app (body : A → St → result St) l1 l2 s :
  for_each body (l1 ++ l2) s = s' ← for_each body l1 s; for_each body l2 s'.
Proof.
  revert s. induction l1 as [|a l1 IH]; intros s; [done|].
  simpl. destruct (body a s); simpl; [apply IH|done].
Qed.

(** A loop whose body never throws is a fold. *)
Lemma for_each_total (body : A → St → result St) (step : St → A → St) l s :
  Forall (λ a, ∀ s, body a s = Ok (step s a)) l →
  for_each body l s = Ok (foldl step s l).
Proof.
  intros H. revert s. induction H as [|a l Ha _ IH]; intros s; [done|].
  simpl. rewrite Ha. simpl. apply IH.
Qed.

(** A loop that returns has run every body to its end. *)
Lemma for_each_Ok_inv (body : A → St → result St) a l s r :
  for_each body (a :: l) s = Ok r →
  ∃ s', body a s = Ok s' ∧ for_each body l s' = Ok r.
Proof. simpl. destruct (body a s) as [s'|]; simpl; [eauto|done]. Qed.
End loops.

(** ** [move_solid_mesh] *)

Section mesh_motion.
Context {double : Type} `{!Scalar double, !Opaque, !Collaborators double}.
Variable dim : nat.

Lemma move_cells_visits move_forward s st cells :
  foldl (move_cell dim move_forward s) st cells =
  foldl (λ st r, move_vertex dim move_forward s r.1 st r.2) st (visits dim cells).
Proof.
  revert st. induction cells as [|cell cells IH]; intros st; [done|].
  unfold visits in *. simpl. rewrite foldl_app, <- IH. f_equal.
  unfold move_cell. generalize (seq 0 (vertices_per_cell dim)).
  intros l. revert st. induction l as [|v l IHl]; intros st; [done|].
  simpl. apply IHl.
Qed.

(** The loop invariant: a vertex already touched stays as it is, an
    untouched one is moved at its first visit and never again. *)
Lemma move_visits_lookup move_forward s vs touched xs i :
  (foldl (λ st r, move_vertex dim move_forward s r.1 st r.2) (touched, xs) vs).2 !! i =
  match xs !! i, touched !! i with
  | Some x, Some false => Some (move_point dim move_forward s (first_visit vs i) x)
  | o, _ => o
  end.
Proof.
  revert touched xs. induction vs as [|r vs IH]; intros touched xs.
  - simpl. destruct (xs !! i), (touched !! i) as [[]|]; done.
  - cbn [foldl first_visit]. unfold move_vertex at 2. cbn [fst snd].
    set (j := vertex_index r.1 r.2).
    destruct (touched !! j) as [[]|] eqn:Et;
      destruct (xs !! j) as [x|] eqn:Ex;
      rewrite IH; destruct (decide (j = i)) as [<-|Hne];
      rewrite ?Et, ?Ex; try done.
    + rewrite !list_lookup_insert_eq
        by (eapply lookup_lt_Some; eassumption). done.
    + by rewrite !list_lookup_insert_ne.
Qed.

(** [move_solid_mesh] vertex by vertex. *)
Lemma moved_vertices_imap move_forward s :
  moved_vertices dim move_forward s =
  imap (λ i x, move_point dim move_forward s
                 (first_visit (visits dim (solid_cells s)) i) x)
       (solid_vertices s).
Proof.
  unfold moved_vertices. rewrite move_cells_visits.
  apply list_eq. intros i. rewrite move_visits_lookup, list_lookup_imap.
  destruct (solid_vertices s !! i) as [x|] eqn:Ex; [|done].
  rewrite lookup_replicate_2 by (eapply lookup_lt_Some; eassumption). done.
Qed.
End mesh_motion.

Section mesh_motion_roundtrip.
Context {double : Type} `{!Scalar double, !Opaque, !Collaborators double}.
Variable dim : nat.

Lemma vertex_displacement_length (s : SolidSolver double) cell v :
  length (vertex_displacement dim s cell v) = dim.
Proof. unfold vertex_displacement. by rewrite length_fmap, length_seq. Qed.

Lemma there_and_back_imap (s : SolidSolver double) :
  there_and_back dim s =
  imap (λ i x,
          let r := first_visit (visits dim (solid_cells s)) i in
          move_point dim false s r (move_point dim true s r x))
       (solid_vertices s).
Proof.
  unfold there_and_back. rewrite (moved_vertices_imap dim false).
  cbn [solid_vertices solid_cells set_solid_vertices].
  rewrite (moved_vertices_imap dim true).
  apply list_eq. intros i. rewrite !list_lookup_imap.
  by destruct (solid_vertices s !! i).
Qed.

Lemma move_solid_mesh_vertices move_forward (fsi : FSI double) :
  solid_vertices (solid_solver (move_solid_mesh dim move_forward fsi)) =
  moved_vertices dim move_forward (solid_solver fsi).
Proof. done. Qed.

Lemma move_solid_mesh_there_and_back (fsi : FSI double) :
  solid_vertices
    (solid_solver (move_solid_mesh dim false (move_solid_mesh dim true fsi))) =
  there_and_back dim (solid_solver fsi).
Proof. done. Qed.

(** What [update_indicator] leaves in the two solvers. *)
Lemma update_indicator_solid (fsi : FSI double) :
  solid_solver (update_indicator dim fsi) =
  set_solid_vertices (there_and_back dim (solid_solver fsi)) (solid_solver fsi).
Proof. done. Qed.

Lemma update_indicator_fluid (fsi : FSI double) :
  fluid_solver (update_indicator dim fsi) =
  set_fluid_cells
    (update_cell
       (set_solid_vertices (moved_vertices dim true (solid_solver fsi))
          (solid_solver fsi))
       (n_q_points (fluid_solver fsi))
     <$> fluid_cells (fluid_solver fsi))
    (fluid_solver fsi).
Proof. done. Qed.

Lemma zip_add_sub_close (close : double → double → Prop) (x d : list double) :
  (∀ a b, close (fsub (fadd a b) b) a) →
  length x = length d →
  Forall2 close (t1_sub (t1_add x d) d) x.
Proof.
  intros Hclose. revert d. induction x as [|a x IH]; intros [|b d] Hlen;
    simplify_eq/=; constructor; auto.
Qed.

Lemma zip_add_sub_add (x d : list double) :
  (∀ a b, fadd (fsub (fadd a b) b) b = fadd a b) →
  t1_add (t1_sub (t1_add x d) d) d = t1_add x d.
Proof.
  intros Hstable. revert d. induction x as [|a x IH]; intros [|b d];
    simpl; [done..|]. unfold t1_add, t1_sub in *. simpl. by rewrite Hstable, IH.
Qed.

Lemma point_in_mesh_contains vertices cells point :
  point_in_mesh vertices cells point = true ↔ contains vertices cells point.
Proof.
  unfold contains. induction cells as [|cell cells IH]; simpl.
  - split; [done|]. intros (c & Hc & _). by apply elem_of_nil in Hc.
  - destruct (point_inside vertices cell point) eqn:E.
    + split; [|done]. intros _. exists cell. split; [left|done].
    + rewrite IH. split.
      * intros (c & Hc & Hin). exists c. split; [by right|done].
      * intros (c & Hc & Hin). apply elem_of_cons in Hc as [->|Hc];
          [congruence|eauto].
Qed.

(** The loop with [break] is a conjunction over the quadrature points. *)
Lemma is_solid_from_spec (s : SolidSolver double) f_cell q n :
  is_solid_from s f_cell q n = true ↔
  ∀ k, q ≤ k < q + n →
    point_in_mesh (solid_vertices s) (solid_cells s) (quadrature_point f_cell k)
    = true.
Proof.
  revert q. induction n as [|n IH]; intros q; simpl.
  - split; [intros _ k; lia|done].
  - destruct (point_in_mesh _ _ (quadrature_point f_cell q)) eqn:E; simpl.
    + rewrite IH. split.
      * intros Hall k Hk. destruct (decide (k = q)) as [->|]; [done|].
        apply Hall. lia.
      * intros Hall k Hk. apply Hall. lia.
    + split; [done|]. intros Hall. rewrite Hall in E by lia. done.
Qed.
End mesh_motion_roundtrip.

Section indicator.
Context {double : Type} `{!Scalar double, !Opaque, !Collaborators double}.
Variable dim : nat.

(** C7.  [move_solid_mesh] moves every vertex that some cell has exactly
    once, by the displacement read at the first visit of that vertex, added
    when [move_forward] and subtracted when not, and leaves the other
    vertices alone.  Forward then backward brings every coordinate of every
    vertex back to within the tolerance [close] of the arithmetic (a
    reflexive relation in which [(a + b) - b] is close to [a]; equality,
    for exact arithmetic).  The solid geometry [update_indicator] leaves
    behind is that of forward-then-backward, and it changes nothing else
    of the solid solver. *)
Theorem move_solid_mesh_there_and_back_close
    (fsi : FSI double) (close : double → double → Prop) :
  (∀ a, close a a) →
  (∀ a b, close (fsub (fadd a b) b) a) →
  Forall (λ x, length x = dim) (solid_vertices (solid_solver fsi)) →
  let s := solid_solver fsi in
  let visit i := first_visit (visits dim (solid_cells s)) i in
  (∀ move_forward,
     solid_vertices (solid_solver (move_solid_mesh dim move_forward fsi)) =
     imap (λ i x, move_point dim move_forward s (visit i) x) (solid_vertices s))
  ∧ Forall2 (Forall2 close)
      (solid_vertices
         (solid_solver (move_solid_mesh dim false (move_solid_mesh dim true fsi))))
      (solid_vertices s)
  ∧ solid_solver (update_indicator dim fsi) =
    set_solid_vertices
      (solid_vertices
         (solid_solver (move_solid_mesh dim false (move_solid_mesh dim true fsi))))
      s.
Proof.
  intros Hrefl Hclose Hdim s visit. split; [|split].
  - intros move_forward. apply moved_vertices_imap.
  - rewrite move_solid_mesh_there_and_back, there_and_back_imap.
    apply Forall2_same_length_lookup. split; [by rewrite length_imap|].
    intros i y x Hy Hx. rewrite list_lookup_imap in Hy.
    fold s in Hy. rewrite Hx in Hy. simplify_eq/=.
    destruct (first_visit _ i) as [r|]; simpl.
    + apply zip_add_sub_close; [done|].
      rewrite vertex_displacement_length.
      eapply Forall_lookup_1 in Hdim; [|exact Hx]. done.
    + apply Forall2_same_length_lookup. split; [done|].
      intros j a b Ha Hb. by simplify_eq.
  - done.
Qed.

(** C2.  After [update_indicator] the fluid cells are the same cells with
    the same viscosity, and the indicator of each is 1 or 0: 1 exactly when
    every quadrature point of the cell is inside some cell of the solid
    mesh moved forward by the current displacement. *)
Theorem update_indicator_classifies (fsi : FSI double) :
  let s := solid_solver fsi in
  let f := fluid_solver fsi in
  let displaced := moved_vertices dim true s in
  Forall2
    (λ c c',
       c'.1 = c.1 ∧ get_mu c'.2 = get_mu c.2 ∧
       (indicator c'.2 = 1%Z ∨ indicator c'.2 = 0%Z) ∧
       (indicator c'.2 = 1%Z ↔
        ∀ q, q < n_q_points f →
             contains displaced (solid_cells s) (quadrature_point c.1 q)))
    (fluid_cells f)
    (fluid_cells (fluid_solver (update_indicator dim fsi))).
Proof.
  intros s f displaced. rewrite update_indicator_fluid.
  cbn [fluid_cells set_fluid_cells]. fold s f.
  apply Forall2_fmap_r, Forall_Forall2_diag, Forall_forall.
  intros c _. unfold update_cell. cbn [fst snd indicator get_mu set_indicator].
  split; [done|]. split; [done|].
  pose proof (is_solid_from_spec
                (set_solid_vertices (moved_vertices dim true s) s) c.1 0
                (n_q_points f)) as Hspec.
  cbn [solid_vertices solid_cells set_solid_vertices] in Hspec.
  destruct (is_solid_from _ c.1 0 (n_q_points f)).
  - split; [by left|]. split; [|done]. intros _ q Hq.
    apply point_in_mesh_contains, Hspec; [done|lia].
  - split; [by right|]. split; [done|]. intros Hall.
    assert (false = true) as Hf; [|done]. apply Hspec.
    intros k Hk. apply point_in_mesh_contains, Hall. lia.
Qed.

(** C8, as the code has it.  A second [update_indicator] right after the
    first leaves every fluid cell with the indicator the first gave it
    when, for every solid vertex [x] that some cell has and the
    displacement [d] read for it, moving forward again from where the first
    call put the vertex back gives the first forward position,
    [((x + d) - d) + d = x + d] coordinate by coordinate; which is so in
    every arithmetic that has this as a law, as exact arithmetic does. *)
Theorem update_indicator_twice (fsi : FSI double) :
  let s := solid_solver fsi in
  let stable :=
    ∀ i x r,
      solid_vertices s !! i = Some x →
      first_visit (visits dim (solid_cells s)) i = Some r →
      let d := vertex_displacement dim s r.1 r.2 in
      t1_add (t1_sub (t1_add x d) d) d = t1_add x d in
  (stable →
   fluid_cells (fluid_solver (update_indicator dim (update_indicator dim fsi))) =
   fluid_cells (fluid_solver (update_indicator dim fsi))) ∧
  ((∀ a b, fadd (fsub (fadd a b) b) b = fadd a b) → stable).
Proof.
  intros s stable. split; [|intros Hlaw i x r _ _; by apply zip_add_sub_add].
  intros Hstable.
  rewrite (update_indicator_fluid dim (update_indicator dim fsi)).
  rewrite update_indicator_solid.
  rewrite (update_indicator_fluid dim fsi).
  cbn [fluid_cells set_fluid_cells n_q_points]. fold s.
  assert (moved_vertices dim true (set_solid_vertices (there_and_back dim s) s)
          = moved_vertices dim true s) as Hsame.
  { rewrite !moved_vertices_imap.
    cbn [solid_vertices solid_cells set_solid_vertices].
    rewrite there_and_back_imap. apply list_eq. intros i.
    rewrite !list_lookup_imap.
    destruct (solid_vertices s !! i) as [x|] eqn:Hx; [|done].
    simpl. destruct (first_visit _ i) as [r|] eqn:Hr; [|done]. simpl.
    f_equal. by apply (Hstable i x r). }
  rewrite <- list_fmap_compose. apply list_fmap_ext. intros i c _.
  unfold compose, update_cell. cbn [fst snd].
  rewrite Hsame.
  change (set_solid_vertices (moved_vertices dim true s)
            (set_solid_vertices (there_and_back dim s) s))
    with (set_solid_vertices (moved_vertices dim true s) s).
  done.
Qed.
End indicator.

(** ** Writing a symmetric tensor component by component *)

Section symmetric_fill.
Context {double : Type} `{!Scalar double}.
Variable dim : nat.

Lemma st_zero_shaped : shaped dim (st_zero dim).
Proof.
  split; [apply length_replicate|].
  apply Forall_replicate, length_replicate.
Qed.

Lemma t2_set_shaped i j x (t : list (list double)) :
  shaped dim t → shaped dim (t2_set i j x t).
Proof.
  intros [Hlen Hrows]. unfold t2_set.
  destruct (t !! i) as [row|] eqn:E; [|done]. split.
  - by rewrite length_insert.
  - apply Forall_insert; [done|]. rewrite length_insert.
    eapply Forall_lookup_1 in Hrows; [|exact E]. done.
Qed.

Lemma st_set_shaped i j x (t : list (list double)) :
  shaped dim t → shaped dim (st_set i j x t).
Proof. intros. by do 2 apply t2_set_shaped. Qed.

Lemma t2_set_get i j x (t : list (list double)) a b :
  shaped dim t → i < dim → j < dim →
  st_get (t2_set i j x t) a b =
  if decide (a = i ∧ b = j) then x else st_get t a b.
Proof.
  intros [Hlen Hrows] Hi Hj. unfold t2_set, st_get.
  destruct (lookup_lt_is_Some_2 t i) as [row Hrow]; [lia|]. rewrite Hrow.
  assert (length row = dim) as Hl by (eapply Forall_lookup_1 in Hrows; eauto).
  destruct (decide (a = i)) as [->|Ha].
  - rewrite list_lookup_insert_eq by lia. simpl. unfold t1_get.
    destruct (decide (b = j)) as [->|Hb].
    + rewrite list_lookup_insert_eq by lia. by rewrite decide_True.
    + rewrite list_lookup_insert_ne by done. rewrite Hrow.
      by rewrite decide_False by tauto.
  - rewrite list_lookup_insert_ne by done. by rewrite decide_False by tauto.
Qed.

Lemma st_set_get i j x (t : list (list double)) a b :
  shaped dim t → i < dim → j < dim →
  st_get (st_set i j x t) a b =
  if decide ((a = i ∧ b = j) ∨ (a = j ∧ b = i)) then x else st_get t a b.
Proof.
  intros Ht Hi Hj. unfold st_set.
  rewrite t2_set_get by (try apply t2_set_shaped; done).
  rewrite t2_set_get by done.
  repeat case_decide; try done; tauto.
Qed.

(** A shaped dim tensor is its table of components. *)
Lemma shaped_eq (t : list (list double)) (f : nat → nat → double) :
  shaped dim t →
  (∀ a b, a < dim → b < dim → st_get t a b = f a b) →
  t = (λ i, (λ j, f i j) <$> seq 0 dim) <$> seq 0 dim.
Proof.
  intros [Hlen Hrows] Hget. apply list_eq. intros a.
  rewrite list_lookup_fmap. destruct (decide (a < dim)) as [Ha|Ha].
  - rewrite lookup_seq_lt by done. simpl.
    destruct (lookup_lt_is_Some_2 t a) as [row Hrow]; [lia|]. rewrite Hrow.
    f_equal. apply list_eq. intros b. rewrite list_lookup_fmap.
    assert (length row = dim) as Hl by (eapply Forall_lookup_1 in Hrows; eauto).
    destruct (decide (b < dim)) as [Hb|Hb].
    + rewrite lookup_seq_lt by done. simpl.
      specialize (Hget a b Ha Hb). unfold st_get, t1_get in Hget.
      rewrite Hrow in Hget. simpl in Hget.
      destruct (lookup_lt_is_Some_2 row b) as [y Hy]; [lia|].
      rewrite Hy in Hget |- *. simpl in Hget. by rewrite Hget.
    + rewrite lookup_seq_ge by lia. simpl. apply lookup_ge_None. lia.
  - rewrite lookup_seq_ge by lia. simpl. apply lookup_ge_None. lia.
Qed.

Lemma fill_rows_pairs (x : nat → nat → double) t rows :
  foldl (λ t i, foldl (λ t j, st_set i j (x i j) t) t (seq 0 dim)) t rows =
  foldl (λ t ij, st_set ij.1 ij.2 (x ij.1 ij.2) t) t (index_pairs dim rows).
Proof.
  revert t. induction rows as [|i rows IH]; intros t; [done|].
  unfold index_pairs in *. simpl. rewrite foldl_app, <- IH. f_equal.
  generalize (seq 0 dim). intros l. revert t.
  induction l as [|j l IHl]; intros t; [done|]. simpl. apply IHl.
Qed.

Lemma fill_pairs_shaped (x : nat → nat → double) (t : list (list double)) ps :
  shaped dim t → shaped dim (foldl (λ t ij, st_set ij.1 ij.2 (x ij.1 ij.2) t) t ps).
Proof.
  revert t. induction ps as [|p ps IH]; intros t Ht; [done|].
  simpl. by apply IH, st_set_shaped.
Qed.

(** Writes elsewhere leave a component as it is. *)
Lemma fill_pairs_frame (x : nat → nat → double) (t : list (list double)) ps a b :
  shaped dim t →
  Forall (λ ij, ij.1 < dim ∧ ij.2 < dim ∧
                ¬ ((a = ij.1 ∧ b = ij.2) ∨ (a = ij.2 ∧ b = ij.1))) ps →
  st_get (foldl (λ t ij, st_set ij.1 ij.2 (x ij.1 ij.2) t) t ps) a b =
  st_get t a b.
Proof.
  intros Ht Hps. revert t Ht.
  induction Hps as [|p ps (Hi & Hj & Hne) _ IH]; intros t Ht; [done|].
  simpl. rewrite IH by by apply st_set_shaped.
  rewrite st_set_get by done. by rewrite decide_False.
Qed.

(** Component (a, b) ends up with what the later of the two writes (a, b)
    and (b, a) stored: the one with the larger row index. *)
Lemma sym_fill_get (x : nat → nat → double) a b :
  a < dim → b < dim →
  st_get (sym_fill dim x) a b = x (a `max` b) (a `min` b).
Proof.
  intros Ha Hb. unfold sym_fill. rewrite fill_rows_pairs.
  set (M := a `max` b). set (m := a `min` b).
  assert (index_pairs dim (seq 0 dim) =
          (index_pairs dim (seq 0 M) ++ ((λ j, (M, j)) <$> seq 0 m)) ++
          (M, m) :: ((λ j, (M, j)) <$> seq (S m) (dim - S m)) ++
                    index_pairs dim (seq (S M) (dim - S M))) as ->.
  { unfold index_pairs.
    replace dim with (M + S (dim - S M)) at 1 by lia.
    rewrite seq_app, bind_app. simpl. rewrite <- app_assoc. f_equal.
    assert (seq 0 dim = seq 0 m ++ m :: seq (S m) (dim - S m)) as Hsplit.
    { replace dim with (m + S (dim - S m)) at 1 by lia. by rewrite seq_app. }
    rewrite Hsplit at 1. rewrite fmap_app, <- app_assoc. done. }
  rewrite foldl_app. simpl. rewrite fill_pairs_frame.
  - rewrite st_set_get; [|by apply fill_pairs_shaped, st_zero_shaped|lia..].
    rewrite decide_True; [done|]. lia.
  - by apply st_set_shaped, fill_pairs_shaped, st_zero_shaped.
  - apply Forall_app. split.
    + apply Forall_fmap, Forall_forall. intros j Hj%elem_of_seq. simpl. lia.
    + unfold index_pairs. apply Forall_forall. intros [i j] Hij.
      apply list_elem_of_bind in Hij as (i' & Hij & Hi'%elem_of_seq).
      apply list_elem_of_fmap in Hij as (j' & ? & Hj'%elem_of_seq).
      simplify_eq/=. lia.
Qed.

Lemma sym_fill_spec (x : nat → nat → double) :
  sym_fill dim x =
  (λ i, (λ j, x (i `max` j) (i `min` j)) <$> seq 0 dim) <$> seq 0 dim.
Proof.
  apply shaped_eq.
  - unfold sym_fill. rewrite fill_rows_pairs.
    apply fill_pairs_shaped, st_zero_shaped.
  - intros a b Ha Hb. by apply sym_fill_get.
Qed.
End symmetric_fill.

(** ** [find_fluid_fsi] *)

Section force_transfer.
Context {double : Type} `{!Scalar double, !Opaque, !Collaborators double}.
Variable dim : nat.

Lemma for_each_throws {A St : Type} (body : A → St → result St) l a :
  a ∈ l → (∀ s, ∃ e, body a s = Throw e) →
  ∀ s, ∃ e, for_each body l s = Throw e.
Proof.
  intros Ha Hthrow. induction l as [|b l IH]; intros s.
  - by apply elem_of_nil in Ha.
  - simpl. destruct (body b s) as [s'|e] eqn:E; simpl; [|eauto].
    apply elem_of_cons in Ha as [->|Ha]; [|by apply IH].
    destruct (Hthrow s) as [e He]. congruence.
Qed.

Lemma for_range_throws {St : Type} (body : nat → St → result St) n k :
  k < n → (∀ s, ∃ e, body k s = Throw e) →
  ∀ s, ∃ e, for_range body 0 n s = Throw e.
Proof.
  intros Hk Hthrow s. rewrite for_range_seq.
  apply for_each_throws with k; [|done]. apply elem_of_seq. lia.
Qed.

Lemma for_range_total {St : Type} (body : nat → St → result St)
    (step : St → nat → St) n s :
  (∀ k s, k < n → body k s = Ok (step s k)) →
  for_range body 0 n s = Ok (foldl step s (seq 0 n)).
Proof.
  intros Hbody. rewrite for_range_seq. apply for_each_total.
  apply Forall_forall. intros k Hk%elem_of_seq s'. apply Hbody. lia.
Qed.

Lemma foldl_push {A B C : Type} (g : A → B) (h : A → C) l out :
  foldl (λ (out : list B * list C) a, (out.1 ++ [g a], out.2 ++ [h a])) out l =
  (out.1 ++ (g <$> l), out.2 ++ (h <$> l)).
Proof.
  revert out. induction l as [|a l IH]; intros [o1 o2]; simpl.
  - by rewrite !app_nil_r.
  - rewrite IH. simpl. by rewrite <- !app_assoc.
Qed.

Lemma solid_acc_at_ok (s : SolidSolver double) x acc :
  solid_point_value (solid_vertices s) (solid_cells s)
    (current_acceleration s) x = Ok acc →
  solid_acc_at dim s x = Ok (solid_accel_of dim acc).
Proof. intros Hacc. unfold solid_acc_at. by rewrite Hacc. Qed.

Lemma solid_sigma_at_ok (s : SolidSolver double) x
    (sig : nat → nat → Vector double) :
  (∀ i j, i < dim → j < dim →
     dg_point_value (solid_vertices s) (solid_cells s) (stress s i j) x
     = Ok (sig i j)) →
  solid_sigma_at dim s x = Ok (solid_stress_of dim sig).
Proof.
  intros Hsig. unfold solid_sigma_at, solid_stress_of.
  rewrite <- (sym_fill_spec dim (λ i j, sig i j 0)). unfold sym_fill.
  apply for_range_total. intros i t Hi.
  apply for_range_total. intros j t' Hj. by rewrite Hsig.
Qed.

(** One quadrature point whose solid interpolations succeed. *)
Lemma fsi_point_ok (fsi : FSI double) (c : FluidCell * CellProperty double)
    q out acc sig :
  let s := solid_solver fsi in
  let x := quadrature_point c.1 q in
  solid_point_value (solid_vertices s) (solid_cells s)
    (current_acceleration s) x = Ok acc →
  (∀ i j, i < dim → j < dim →
     dg_point_value (solid_vertices s) (solid_cells s) (stress s i j) x
     = Ok (sig i j)) →
  fsi_point dim fsi c.1 (get_mu c.2) q out =
  Ok (out.1 ++ [stress_discrepancy dim fsi c q (solid_stress_of dim sig)],
      out.2 ++ [accel_discrepancy fsi c q (solid_accel_of dim acc)]).
Proof.
  intros s x Hacc Hsig. subst s x. unfold fsi_point.
  rewrite (solid_acc_at_ok _ _ _ Hacc). simpl.
  rewrite (solid_sigma_at_ok _ _ _ Hsig). done.
Qed.

Lemma fsi_cell_skip (fsi : FSI double) (c : FluidCell * CellProperty double) out :
  indicator c.2 = 0%Z → fsi_cell dim fsi c out = Ok out.
Proof. intros Hz. unfold fsi_cell. by rewrite decide_True. Qed.

Lemma fsi_cell_points (fsi : FSI double) (c : FluidCell * CellProperty double) out :
  indicator c.2 ≠ 0%Z →
  fsi_cell dim fsi c out =
  for_range (fsi_point dim fsi c.1 (get_mu c.2)) 0
    (n_q_points (fluid_solver fsi)) out.
Proof. intros Hnz. unfold fsi_cell. by rewrite decide_False. Qed.

(** The loop over the cells, when the interpolations at the points of the
    cells it does not skip succeed. *)
Lemma fsi_cells_ok (fsi : FSI double)
    (acc : Point double → Vector double)
    (sig : nat → nat → Point double → Vector double)
    (cells : list (FluidCell * CellProperty double)) out :
  let s := solid_solver fsi in
  let n := n_q_points (fluid_solver fsi) in
  (∀ c q, c ∈ filter (λ c, indicator c.2 ≠ 0%Z) cells → q < n →
     let x := quadrature_point c.1 q in
     solid_point_value (solid_vertices s) (solid_cells s)
       (current_acceleration s) x = Ok (acc x) ∧
     ∀ i j, i < dim → j < dim →
       dg_point_value (solid_vertices s) (solid_cells s) (stress s i j) x
       = Ok (sig i j x)) →
  for_each (fsi_cell dim fsi) cells out =
  Ok (out.1 ++
        (c ← filter (λ c, indicator c.2 ≠ 0%Z) cells;
         (λ q, let x := quadrature_point c.1 q in
               stress_discrepancy dim fsi c q
                 (solid_stress_of dim (λ i j, sig i j x))) <$> seq 0 n),
      out.2 ++
        (c ← filter (λ c, indicator c.2 ≠ 0%Z) cells;
         (λ q, let x := quadrature_point c.1 q in
               accel_discrepancy fsi c q (solid_accel_of dim (acc x)))
           <$> seq 0 n)).
Proof.
  intros s n. revert out. induction cells as [|c cells IH]; intros out Hok.
  - simpl. rewrite !app_nil_r. by destruct out.
  - cbn [for_each]. rewrite filter_cons in Hok |- *.
    destruct (decide (indicator c.2 = 0%Z)) as [Hz|Hnz].
    + rewrite decide_False in Hok |- * by (intros Hc; by apply Hc).
      rewrite fsi_cell_skip by done. apply IH.
      intros c' q Hc' Hq. by apply Hok.
    + rewrite decide_True in Hok |- * by done.
      rewrite fsi_cell_points by done.
      rewrite (for_range_total _
        (λ out q, (out.1 ++ [stress_discrepancy dim fsi c q
                               (solid_stress_of dim
                                  (λ i j, sig i j (quadrature_point c.1 q)))],
                   out.2 ++ [accel_discrepancy fsi c q
                               (solid_accel_of dim
                                  (acc (quadrature_point c.1 q)))]))).
      * rewrite foldl_push. cbn [mbind result_bind]. rewrite IH.
        -- rewrite !bind_cons. cbn [fst snd]. by rewrite <- !app_assoc.
        -- intros c' q Hc' Hq. apply Hok; [by right|done].
      * intros q out' Hq. fold n in Hq.
        destruct (Hok c q) as [Hacc Hsig]; [by left|done|].
        by apply fsi_point_ok.
Qed.

(** Each quadrature point that is worked through adds one entry to each
    vector. *)
Lemma fsi_point_length (fsi : FSI double) f_cell mu q out out' :
  fsi_point dim fsi f_cell mu q out = Ok out' →
  length out'.1 = S (length out.1) ∧ length out'.2 = S (length out.2).
Proof.
  unfold fsi_point. destruct (solid_acc_at _ _ _); simpl; [|done].
  destruct (solid_sigma_at _ _ _); simpl; [|done].
  intros [= <-]. simpl. rewrite !length_app. simpl. lia.
Qed.

Lemma fsi_points_length (fsi : FSI double) f_cell mu i n out out' :
  for_range (fsi_point dim fsi f_cell mu) i n out = Ok out' →
  length out'.1 = length out.1 + n ∧ length out'.2 = length out.2 + n.
Proof.
  revert i out. induction n as [|n IH]; intros i out.
  - intros [= <-]. lia.
  - simpl. destruct (fsi_point _ _ _ _ _ _) as [out1|] eqn:E; simpl; [|done].
    intros Hrest. apply fsi_point_length in E. apply IH in Hrest. lia.
Qed.

Lemma fsi_cells_length (fsi : FSI double) cells out out' :
  for_each (fsi_cell dim fsi) cells out = Ok out' →
  let k := length (filter (λ c, indicator c.2 ≠ 0%Z) cells)
           * n_q_points (fluid_solver fsi) in
  length out'.1 = length out.1 + k ∧ length out'.2 = length out.2 + k.
Proof.
  revert out. induction cells as [|c cells IH]; intros out.
  - intros [= <-]. simpl. lia.
  - cbn [for_each]. rewrite filter_cons.
    destruct (decide (indicator c.2 = 0%Z)) as [Hz|Hnz].
    + rewrite decide_False by (intros Hc; by apply Hc).
      rewrite fsi_cell_skip by done. apply IH.
    + rewrite decide_True by done. rewrite fsi_cell_points by done.
      destruct (for_range _ _ _ _) as [out1|] eqn:E; cbn [mbind result_bind];
        [|done].
      intros Hrest. apply fsi_points_length in E. apply IH in Hrest.
      simpl in *. lia.
Qed.
End force_transfer.

Section force_transfer_claims.
Context {double : Type} `{!Scalar double, !Opaque, !Collaborators double}.
Variable dim : nat.

(** C3.  When the solid interpolations succeed at the quadrature points of
    the fluid cells whose indicator is not 0 (the acceleration gives
    [acc x], the stress component (i, j) gives [sig i j x] at the point
    [x]), [find_fluid_fsi] returns, for these cells in the order of the
    fluid cells and for the quadrature points 0, 1, ... of each in turn, the
    stress [(-p I + mu sym(grad v)) - solid_stress] in the first vector and
    the acceleration [(dv/dt + (grad v) v) - solid_accel] in the second,
    [mu] being the viscosity of the cell and [dt] the step of the time
    controller; the cells with indicator 0 contribute nothing. *)
Theorem find_fluid_fsi_discrepancies (fsi : FSI double)
    (acc : Point double → Vector double)
    (sig : nat → nat → Point double → Vector double) :
  let s := solid_solver fsi in
  let f := fluid_solver fsi in
  (∀ c q, c ∈ immersed_cells f → q < n_q_points f →
     let x := quadrature_point c.1 q in
     solid_point_value (solid_vertices s) (solid_cells s)
       (current_acceleration s) x = Ok (acc x) ∧
     ∀ i j, i < dim → j < dim →
       dg_point_value (solid_vertices s) (solid_cells s) (stress s i j) x
       = Ok (sig i j x)) →
  find_fluid_fsi dim fsi =
  Ok (c ← immersed_cells f;
      (λ q, let x := quadrature_point c.1 q in
            stress_discrepancy dim fsi c q
              (solid_stress_of dim (λ i j, sig i j x))) <$> seq 0 (n_q_points f),
      c ← immersed_cells f;
      (λ q, let x := quadrature_point c.1 q in
            accel_discrepancy fsi c q (solid_accel_of dim (acc x)))
        <$> seq 0 (n_q_points f)).
Proof.
  intros s f Hok. unfold find_fluid_fsi.
  by rewrite (fsi_cells_ok dim fsi acc sig).
Qed.

Lemma filter_boolean_indicator (cells : list (FluidCell * CellProperty double)) :
  Forall (λ c, indicator c.2 = 0%Z ∨ indicator c.2 = 1%Z) cells →
  filter (λ c, indicator c.2 ≠ 0%Z) cells =
  filter (λ c, indicator c.2 = 1%Z) cells.
Proof.
  induction 1 as [|c cells Hc _ IH]; [done|].
  rewrite !filter_cons, IH.
  destruct Hc as [Hc|Hc]; rewrite Hc; by repeat case_decide.
Qed.

(** C6.  With every indicator 0 or 1, the two vectors [find_fluid_fsi]
    returns have one length: the number of fluid cells with indicator 1
    times the number of quadrature points of a cell. *)
Theorem find_fluid_fsi_lengths (fsi : FSI double)
    (fsi_stress : list (SymmetricTensor double))
    (fsi_acceleration : list (Tensor1 double)) :
  let f := fluid_solver fsi in
  Forall (λ c, indicator c.2 = 0%Z ∨ indicator c.2 = 1%Z) (fluid_cells f) →
  find_fluid_fsi dim fsi = Ok (fsi_stress, fsi_acceleration) →
  length fsi_stress = length fsi_acceleration ∧
  length fsi_stress =
    length (filter (λ c, indicator c.2 = 1%Z) (fluid_cells f)) * n_q_points f.
Proof.
  intros f Hbool Hret. apply fsi_cells_length in Hret.
  rewrite filter_boolean_indicator in Hret by done. simpl in Hret.
  fold f in Hret. lia.
Qed.

Lemma solid_sigma_at_throws (s : SolidSolver double) x i j e :
  i < dim → j < dim →
  dg_point_value (solid_vertices s) (solid_cells s) (stress s i j) x = Throw e →
  ∃ e', solid_sigma_at dim s x = Throw e'.
Proof.
  intros Hi Hj Hthrow. unfold solid_sigma_at.
  apply for_range_throws with i; [done|]. intros t.
  apply for_range_throws with j; [done|]. intros t'.
  rewrite Hthrow. eauto.
Qed.

End force_transfer_claims.

Section undisplaced_solid.
Context {double : Type} `{!Scalar double, !Opaque, !Collaborators double}.
Variable dim : nat.


Lemma is_solid_from_forallb (s : SolidSolver double) f_cell q n :
  is_solid_from s f_cell q n =
  forallb (λ k, point_in_mesh (solid_vertices s) (solid_cells s)
                  (quadrature_point f_cell k)) (seq q n).
Proof.
  revert q. induction n as [|n IH]; intros q; [done|]. simpl.
  destruct (point_in_mesh _ _ _); simpl; [apply IH|done].
Qed.

Lemma immersed_after_update (s1 : SolidSolver double) n
    (cells : list (FluidCell * CellProperty double)) :
  filter (λ c, indicator c.2 ≠ 0%Z) (update_cell s1 n <$> cells) =
  update_cell s1 n <$>
    filter (λ c, all_points_inside (solid_vertices s1) (solid_cells s1) n c = true)
           cells.
Proof.
  induction cells as [|c cells IH]; [done|].
  rewrite fmap_cons, !filter_cons, IH.
  assert (indicator (update_cell s1 n c).2 =
          if all_points_inside (solid_vertices s1) (solid_cells s1) n c
          then 1%Z else 0%Z) as Hind.
  { unfold update_cell, all_points_inside. simpl.
    by rewrite is_solid_from_forallb. }
  destruct (all_points_inside _ _ n c) eqn:E.
  - rewrite decide_True by (by rewrite Hind). by rewrite decide_True.
  - rewrite decide_False by (rewrite Hind; intros Hc; by apply Hc).
    by rewrite decide_False.
Qed.


End undisplaced_solid.

(** ** [find_solid_bc] *)

Section traction_transfer.
Context {double : Type} `{!Scalar double, !Opaque, !Collaborators double}.
Variable dim : nat.

(** Nested loops are one loop over the pairs. *)
Lemma for_each_nested {A B St : Type} (inner : A → list B)
    (body : A → B → St → result St) l s :
  for_each (λ a, for_each (body a) (inner a)) l s =
  for_each (λ ab, body ab.1 ab.2) (a ← l; (λ b, (a, b)) <$> inner a) s.
Proof.
  revert s. induction l as [|a l IH]; intros s; [done|].
  rewrite bind_cons, for_each_app. cbn [for_each].
  assert (∀ s, for_each (body a) (inner a) s =
               for_each (λ ab, body ab.1 ab.2) ((λ b, (a, b)) <$> inner a) s)
    as ->.
  { generalize (inner a). intros k. induction k as [|b k IHk]; intros s0; [done|].
    simpl. destruct (body a b s0); simpl; [apply IHk|done]. }
  destruct (for_each _ _ s); simpl; [apply IH|done].
Qed.

(** A loop that skips some entries and appends for the others. *)
Lemma for_each_filter_append {A B : Type} (P : A → Prop)
    `{!∀ a, Decision (P a)} (body : A → list B → result (list B))
    (g : A → list B) l out :
  (∀ a out, a ∈ l → ¬ P a → body a out = Ok out) →
  (∀ a out, a ∈ l → P a → body a out = Ok (out ++ g a)) →
  for_each body l out = Ok (out ++ (filter P l ≫= g)).
Proof.
  revert out. induction l as [|a l IH]; intros out Hskip Htake.
  - simpl. by rewrite app_nil_r.
  - cbn [for_each]. rewrite filter_cons. destruct (decide (P a)) as [Ha|Ha].
    + rewrite Htake by (done || left). cbn [mbind result_bind].
      rewrite IH, bind_cons, app_assoc; [done|..];
        intros a' out' Ha'; [apply Hskip|apply Htake]; by right.
    + rewrite Hskip by (done || left). cbn [mbind result_bind].
      apply IH; intros a' out' Ha'; [apply Hskip|apply Htake]; by right.
Qed.

Lemma foldl_append {A B : Type} (h : A → B) l (out : list B) :
  foldl (λ out a, out ++ [h a]) out l = out ++ (h <$> l).
Proof.
  revert out. induction l as [|a l IH]; intros out; simpl.
  - by rewrite app_nil_r.
  - by rewrite IH, <- app_assoc.
Qed.

Lemma sym_deformation_of_spec (gradient : nat → Tensor1 double) :
  sym_deformation_of dim gradient = sym_gradient_of dim gradient.
Proof.
  unfold sym_deformation_of, sym_gradient_of.
  exact (sym_fill_spec dim
           (λ i j, fdiv (fadd (t1_get (gradient i) j) (t1_get (gradient j) i))
                        (lit 2 0))).
Qed.

Lemma takes_traction_spec (fsi : FSI double) fc :
  takes_traction fsi fc = true ↔
  at_boundary fc = true ∧
  solid_dirichlet_bcs (parameters fsi) !! boundary_id fc = None.
Proof.
  unfold takes_traction. rewrite andb_true_iff, bool_decide_eq_true. done.
Qed.

Lemma traction_cells_faces (fsi : FSI double) traction :
  for_each (traction_cell dim fsi) (solid_cells (solid_solver fsi)) traction =
  for_each (λ cf, traction_face dim fsi cf.1 cf.2) (solid_faces dim (solid_solver fsi))
    traction.
Proof.
  unfold solid_faces.
  rewrite <- (for_each_nested (λ _, seq 0 (faces_per_cell dim))
                (traction_face dim fsi)).
  generalize (solid_cells (solid_solver fsi)). intros l. revert traction.
  induction l as [|c l IH]; intros traction; [done|].
  cbn [for_each].
  change (traction_cell dim fsi c traction)
    with (for_range (traction_face dim fsi c) 0 (faces_per_cell dim) traction).
  rewrite for_range_seq.
  destruct (for_each _ _ traction); simpl; [apply IH|done].
Qed.

(** C5.  [find_solid_bc] works through the faces of the solid cells, cell
    by cell and face by face, and takes a face exactly when it is at the
    boundary and its boundary id has no entry in [solid_dirichlet_bcs].
    When the fluid solution and its gradient can be interpolated at the
    quadrature points of these faces (giving [val x] and [grad x] at [x]),
    it returns, face by face and point by point, the traction
    [(-p I + viscosity sym(grad v)) normal], the points and normals being
    those of the solid vertices as stored, which nothing has displaced; so
    its length is the number of such faces times the number of quadrature
    points of a face. *)
Theorem find_solid_bc_tractions (fsi : FSI double)
    (val : Point double → Vector double)
    (grad : Point double → nat → Tensor1 double) :
  let s := solid_solver fsi in
  let f := fluid_solver fsi in
  (∀ cf q, cf ∈ traction_faces dim fsi → q < n_face_q_points s →
     let x := face_quadrature_point (solid_vertices s) cf.1 cf.2 q in
     fluid_point_value (fluid_cells f).*1 (present_solution f) x = Ok (val x) ∧
     fluid_point_gradient (fluid_cells f).*1 (present_solution f) x
     = Ok (grad x)) →
  let traction :=
    cf ← traction_faces dim fsi;
    (λ q, let x := face_quadrature_point (solid_vertices s) cf.1 cf.2 q in
          let normal := normal_vector (solid_vertices s) cf.1 cf.2 q in
          traction_of dim fsi (val x) (grad x) normal)
      <$> seq 0 (n_face_q_points s) in
  find_solid_bc dim fsi = Ok traction ∧
  length traction = length (traction_faces dim fsi) * n_face_q_points s.
Proof.
  intros s f Hok traction. split.
  - unfold find_solid_bc. rewrite traction_cells_faces.
    set (x := λ (cf : SolidCell * nat) q,
                face_quadrature_point (solid_vertices s) cf.1 cf.2 q).
    set (one := λ (cf : SolidCell * nat) q,
                  traction_of dim fsi (val (x cf q)) (grad (x cf q))
                    (normal_vector (solid_vertices s) cf.1 cf.2 q)).
    rewrite (for_each_filter_append
               (λ cf, at_boundary (face cf.1 cf.2) = true ∧
                      solid_dirichlet_bcs (parameters fsi)
                        !! boundary_id (face cf.1 cf.2) = None)
               _ (λ cf, one cf <$> seq 0 (n_face_q_points s))); [done|..].
    + intros cf out _ Hcf. unfold traction_face.
      destruct (takes_traction fsi (face cf.1 cf.2)) eqn:E; [|done].
      by apply takes_traction_spec in E.
    + intros cf out Hin Hcf. unfold traction_face.
      rewrite (proj2 (takes_traction_spec fsi _) Hcf).
      rewrite (for_range_total _ (λ out q, out ++ [one cf q])).
      * by rewrite foldl_append.
      * intros q out' Hq. unfold traction_point. fold s f.
        destruct (Hok cf q) as [Hval Hgrad]; [|done|].
        { apply list_elem_of_filter. split; [done|]. exact Hin. }
        simpl in Hval, Hgrad. rewrite Hval. cbn [mbind result_bind].
        rewrite Hgrad. cbn [mbind result_bind].
        by rewrite sym_deformation_of_spec.
  - unfold traction. generalize (traction_faces dim fsi). intros l.
    induction l as [|cf l IH]; [done|].
    rewrite bind_cons, length_app, IH, length_fmap, length_seq. simpl. lia.
Qed.
End traction_transfer.

(** ** [run] *)

Section driver.
Context {double : Type} `{!Scalar double, !Opaque, !Collaborators double}.
Variable dim : nat.

Lemma for_each_returns {A St : Type} (body : A → St → result St) l s :
  (∀ a s, returns (body a s)) → returns (for_each body l s).
Proof.
  intros Hbody. revert s. induction l as [|a l IH]; intros s; [by eexists|].
  simpl. destruct (Hbody a s) as [s' ->]. simpl. apply IH.
Qed.

Lemma for_range_returns {St : Type} (body : nat → St → result St) i n s :
  (∀ k s, returns (body k s)) → returns (for_range body i n s).
Proof. intros Hbody. rewrite for_range_seq. by apply for_each_returns. Qed.

Lemma find_solid_bc_returns (fsi : FSI double) :
  never_throws → returns (find_solid_bc dim fsi).
Proof.
  intros (_ & _ & Hval & Hgrad & _). unfold find_solid_bc.
  apply for_each_returns. intros cell t. unfold traction_cell.
  apply for_range_returns. intros f t'. unfold traction_face.
  destruct (takes_traction _ _); [|by eexists].
  apply for_range_returns. intros q t''. unfold traction_point.
  destruct (Hval (fluid_cells (fluid_solver fsi)).*1
              (present_solution (fluid_solver fsi))
              (face_quadrature_point (solid_vertices (solid_solver fsi)) cell f q))
    as [v ->].
  destruct (Hgrad (fluid_cells (fluid_solver fsi)).*1
              (present_solution (fluid_solver fsi))
              (face_quadrature_point (solid_vertices (solid_solver fsi)) cell f q))
    as [g ->].
  by eexists.
Qed.

Lemma find_fluid_fsi_returns (fsi : FSI double) :
  never_throws → returns (find_fluid_fsi dim fsi).
Proof.
  intros (Hacc & Hsig & _). unfold find_fluid_fsi.
  apply for_each_returns. intros c out. unfold fsi_cell.
  destruct (decide _); [by eexists|].
  apply for_range_returns. intros q out'. unfold fsi_point, solid_acc_at.
  destruct (Hacc (solid_vertices (solid_solver fsi)) (solid_cells (solid_solver fsi))
              (current_acceleration (solid_solver fsi)) (quadrature_point c.1 q))
    as [v ->]. simpl.
  assert (returns (solid_sigma_at dim (solid_solver fsi) (quadrature_point c.1 q)))
    as [t ->]; [|by eexists].
  unfold solid_sigma_at. apply for_range_returns. intros i t.
  apply for_range_returns. intros j t'.
  destruct (Hsig (solid_vertices (solid_solver fsi)) (solid_cells (solid_solver fsi))
              (stress (solid_solver fsi) i j) (quadrature_point c.1 q)) as [w ->].
  by eexists.
Qed.

(** One pass of the loop, when nothing throws: its six calls in order, the
    solid step on the traction just found and the fluid step on the force
    just found; only the solvers and the time change, and the time by one
    increment. *)
Lemma cycle_returns (first_step : bool) (fsi : FSI double) log :
  never_throws →
  ∃ fsi' evs,
    cycle dim first_step (fsi, log) = Ok (fsi', log ++ evs) ∧
    is_cycle first_step evs ∧
    time fsi' = increment (time fsi) ∧
    parameters fsi' = parameters fsi.
Proof.
  intros Hnt. unfold cycle.
  destruct (find_solid_bc_returns fsi Hnt) as [traction ->]. simpl.
  pose proof Hnt as (_ & _ & _ & _ & _ & _ & _ & Hfluid & _ & _ & Hsolid).
  destruct (Hsolid first_step
              (set_fluid_traction traction (solid_solver fsi))) as [s1 ->]. simpl.
  destruct (find_fluid_fsi_returns
              (update_indicator dim (with_solid s1
                 (with_solid (set_fluid_traction traction (solid_solver fsi)) fsi)))
              Hnt) as [[st ac] ->]. simpl.
  match goal with |- context [fluid_run_one_step first_step ?f] =>
    destruct (Hfluid first_step f) as [f1 ->] end. simpl.
  eexists _, _. split.
  { rewrite <- !app_assoc. simpl. reflexivity. }
  split; [by eexists _, _, _|done].
Qed.

(** The loop runs as long as [time.end() - time.current() > 1e-12] and no
    longer: when that holds after 0, 1, ..., [n]-1 increments and fails
    after [n], the loop makes exactly [n] passes, whatever the
    arithmetic. *)
Lemma run_loop_cycles (n fuel : nat) (first_step : bool) (fsi : FSI double) log :
  never_throws →
  (∀ k, k < n → not_finished (Nat.iter k increment (time fsi)) = true) →
  not_finished (Nat.iter n increment (time fsi)) = false →
  n < fuel →
  ∃ fsi' evs,
    run_loop dim fuel first_step (fsi, log) = Done (fsi', log ++ evs) ∧
    is_cycles n first_step evs ∧
    time fsi' = Nat.iter n increment (time fsi) ∧
    parameters fsi' = parameters fsi.
Proof.
  intros Hnt. revert fuel first_step fsi log.
  induction n as [|n IH]; intros fuel first_step fsi log Hgo Hstop Hfuel.
  - destruct fuel as [|fuel]; [lia|]. simpl in *. rewrite Hstop.
    exists fsi, []. by rewrite app_nil_r.
  - destruct fuel as [|fuel]; [lia|]. cbn [run_loop fst].
    pose proof (Hgo 0 ltac:(lia)) as Hgo0. simpl in Hgo0. rewrite Hgo0.
    destruct (cycle_returns first_step fsi log Hnt)
      as (fsi1 & evs1 & -> & Hc & Ht & Hp).
    destruct (IH fuel false fsi1 (log ++ evs1))
      as (fsi' & evs & -> & Hcs & Ht' & Hp'); [| |lia|].
    + intros k Hk. rewrite Ht, <- Nat.iter_succ_r. apply Hgo. lia.
    + by rewrite Ht, <- Nat.iter_succ_r.
    + exists fsi', (evs1 ++ evs). rewrite app_assoc. split; [done|]. split.
      * by exists evs1, evs.
      * rewrite Ht', Ht, <- Nat.iter_succ_r. split; [done|]. congruence.
Qed.

(** [run], when nothing throws: the prologue, then the loop. *)
Lemma run_cycles (n fuel : nat) (fsi : FSI double) :
  never_throws →
  (∀ k, k < n → not_finished (Nat.iter k increment (time fsi)) = true) →
  not_finished (Nat.iter n increment (time fsi)) = false →
  n < fuel →
  ∃ fsi' evs,
    run dim fuel fsi =
      Done (fsi', prologue (global_refinement (parameters fsi)) ++ evs) ∧
    is_cycles n true evs ∧
    time fsi' = Nat.iter n increment (time fsi).
Proof.
  intros Hnt Hgo Hstop Hfuel. unfold run, initialize_system.
  pose proof Hnt as (_ & _ & _ & _ & Hr & Hfs & Hfi & _ & Hss & Hsi & _).
  destruct (Hr (global_refinement (parameters fsi)) (fluid_solver fsi)) as [f0 ->].
  simpl.
  destruct (Hfs f0) as [f1 ->]. simpl.
  destruct (Hfi f1) as [f2 ->]. simpl.
  destruct (Hss (solid_solver fsi)) as [s1 ->]. simpl.
  destruct (Hsi s1) as [s2 ->]. simpl.
  match goal with |- context [run_loop dim fuel true (?w, ?l)] =>
    destruct (run_loop_cycles n fuel true w l Hnt)
      as (fsi' & evs & -> & Hcs & Ht & _); [done..|] end.
  by exists fsi', evs.
Qed.
End driver.

(** ** [run], whatever the collaborators do *)

Section driver_returns.
Context {double : Type} `{!Scalar double, !Opaque, !Collaborators double}.
Variable dim : nat.

(** A pass that comes to its end has made its six calls and incremented
    the time; it does not touch the parameters. *)
Lemma cycle_Ok_inv (first_step : bool) (fsi fsi' : FSI double) log log' :
  cycle dim first_step (fsi, log) = Ok (fsi', log') →
  ∃ evs, log' = log ++ evs ∧ is_cycle first_step evs ∧
         time fsi' = increment (time fsi) ∧
         parameters fsi' = parameters fsi.
Proof.
  unfold cycle.
  destruct (find_solid_bc dim fsi) as [traction|]; simpl; [|done].
  destruct (solid_run_one_step _ _) as [s1|]; simpl; [|done].
  destruct (find_fluid_fsi dim _) as [[st ac]|]; simpl; [|done].
  destruct (fluid_run_one_step _ _) as [f1|]; simpl; [|done].
  intros [= <- <-]. eexists. split.
  { rewrite <- !app_assoc. simpl. reflexivity. }
  split; [by eexists _, _, _|done].
Qed.

Lemma run_loop_Done_inv (fuel : nat) (first_step : bool)
    (fsi fsi' : FSI double) log log' :
  run_loop dim fuel first_step (fsi, log) = Done (fsi', log') →
  ∃ k evs,
    k < fuel ∧ log' = log ++ evs ∧ is_cycles k first_step evs ∧
    time fsi' = Nat.iter k increment (time fsi) ∧
    parameters fsi' = parameters fsi ∧
    not_finished (time fsi') = false.
Proof.
  revert first_step fsi log.
  induction fuel as [|fuel IH]; intros first_step fsi log; [done|].
  cbn [run_loop fst]. destruct (not_finished (time fsi)) eqn:Hguard.
  - destruct (cycle dim first_step (fsi, log)) as [[fsi1 log1]|] eqn:Hc; [|done].
    apply cycle_Ok_inv in Hc as (evs1 & -> & Hc1 & Ht1 & Hp1).
    intros (k & evs & Hk & -> & Hcs & Ht & Hp & Hend)%IH.
    exists (S k), (evs1 ++ evs). split; [lia|]. split; [by rewrite app_assoc|].
    split; [by exists evs1, evs|].
    split; [by rewrite Nat.iter_succ_r, Ht, Ht1|]. split; [congruence|done].
  - intros [= <- <-]. exists 0, []. split; [lia|].
    by rewrite app_nil_r.
Qed.

(** X1.  Whenever [run] returns, whatever the arithmetic and whatever the
    solvers and deal.II did: the loop guard is false, the parameters are the
    ones it started with, and after its prologue it has made a whole number
    of full passes, never a part of one, the first with [first_step] set
    and the others without, the time having been incremented once per
    pass. *)
Theorem run_returns_after_whole_passes (fuel : nat) (fsi final : FSI double)
    (log : list (event double)) :
  run dim fuel fsi = Done (final, log) →
  ∃ k evs,
    k < fuel ∧
    log = prologue (global_refinement (parameters fsi)) ++ evs ∧
    is_cycles k true evs ∧
    time final = Nat.iter k increment (time fsi) ∧
    parameters final = parameters fsi ∧
    not_finished (time final) = false.
Proof.
  unfold run, initialize_system.
  destruct (refine_global _ _) as [f0|]; [|done]. simpl.
  destruct (fluid_setup_dofs _) as [f1|]; [|done]. simpl.
  destruct (fluid_initialize_system _) as [f2|]; [|done]. simpl.
  destruct (solid_setup_dofs _) as [s1|]; [|done]. simpl.
  destruct (solid_initialize_system _) as [s2|]; [|done]. simpl.
  intros (k & evs & Hk & -> & Hcs & Ht & Hp & Hend)%run_loop_Done_inv.
  by exists k, evs.
Qed.

(** As long as the guard holds and nothing throws, the loop goes on. *)
Lemma run_loop_goes_on (fuel : nat) (first_step : bool) (fsi : FSI double) log :
  never_throws →
  (∀ k, k < fuel → not_finished (Nat.iter k increment (time fsi)) = true) →
  run_loop dim fuel first_step (fsi, log) = OutOfFuel.
Proof.
  intros Hnt. revert first_step fsi log.
  induction fuel as [|fuel IH]; intros first_step fsi log Hgo; [done|].
  cbn [run_loop fst].
  pose proof (Hgo 0 ltac:(lia)) as Hgo0. simpl in Hgo0. rewrite Hgo0.
  destruct (cycle_returns dim first_step fsi log Hnt)
    as (fsi1 & evs1 & -> & _ & Ht & _).
  apply IH. intros k Hk. rewrite Ht, <- Nat.iter_succ_r. apply Hgo. lia.
Qed.

Lemma run_goes_on (fuel : nat) (fsi : FSI double) :
  never_throws →
  (∀ k, k < fuel → not_finished (Nat.iter k increment (time fsi)) = true) →
  run dim fuel fsi = OutOfFuel.
Proof.
  intros Hnt Hgo. unfold run, initialize_system.
  pose proof Hnt as (_ & _ & _ & _ & Hr & Hfs & Hfi & _ & Hss & Hsi & _).
  destruct (Hr (global_refinement (parameters fsi)) (fluid_solver fsi)) as [f0 ->].
  simpl.
  destruct (Hfs f0) as [f1 ->]. simpl.
  destruct (Hfi f1) as [f2 ->]. simpl.
  destruct (Hss (solid_solver fsi)) as [s1 ->]. simpl.
  destruct (Hsi s1) as [s2 ->]. simpl.
  by apply run_loop_goes_on.
Qed.

(** The loop, whatever is thrown: when the guard holds after 0, ...,
    [n]-1 increments and fails after [n], the loop makes [n] passes and
    returns, unless a pass throws. *)
Lemma run_loop_passes_or_throws (n fuel : nat) (first_step : bool)
    (fsi : FSI double) log :
  (∀ k, k < n → not_finished (Nat.iter k increment (time fsi)) = true) →
  not_finished (Nat.iter n increment (time fsi)) = false →
  n < fuel →
  (∃ e, run_loop dim fuel first_step (fsi, log) = Uncaught e) ∨
  ∃ fsi' evs,
    run_loop dim fuel first_step (fsi, log) = Done (fsi', log ++ evs) ∧
    is_cycles n first_step evs ∧
    time fsi' = Nat.iter n increment (time fsi).
Proof.
  revert fuel first_step fsi log.
  induction n as [|n IH]; intros fuel first_step fsi log Hgo Hstop Hfuel.
  - destruct fuel as [|fuel]; [lia|]. simpl in *. rewrite Hstop.
    right. exists fsi, []. by rewrite app_nil_r.
  - destruct fuel as [|fuel]; [lia|]. cbn [run_loop fst].
    pose proof (Hgo 0 ltac:(lia)) as Hgo0. simpl in Hgo0. rewrite Hgo0.
    destruct (cycle dim first_step (fsi, log)) as [[fsi1 log1]|e] eqn:Hc;
      [|left; by exists e].
    apply cycle_Ok_inv in Hc as (evs1 & -> & Hc1 & Ht & _).
    destruct (IH fuel false fsi1 (log ++ evs1))
      as [[e He]|(fsi' & evs & Hrun & Hcs & Ht')]; [| |lia|..].
    + intros k Hk. rewrite Ht, <- Nat.iter_succ_r. apply Hgo. lia.
    + by rewrite Ht, <- Nat.iter_succ_r.
    + left. by exists e.
    + right. exists fsi', (evs1 ++ evs). rewrite app_assoc. split; [done|].
      split; [by exists evs1, evs|]. by rewrite Ht', Ht, <- Nat.iter_succ_r.
Qed.

Lemma run_passes_or_throws (n fuel : nat) (fsi : FSI double) :
  (∀ k, k < n → not_finished (Nat.iter k increment (time fsi)) = true) →
  not_finished (Nat.iter n increment (time fsi)) = false →
  n < fuel →
  (∃ e, run dim fuel fsi = Uncaught e) ∨
  ∃ fsi' evs,
    run dim fuel fsi =
      Done (fsi', prologue (global_refinement (parameters fsi)) ++ evs) ∧
    is_cycles n true evs ∧
    time fsi' = Nat.iter n increment (time fsi).
Proof.
  intros Hgo Hstop Hfuel. unfold run, initialize_system.
  destruct (refine_global _ _) as [f0|e]; [|left; by exists e]. simpl.
  destruct (fluid_setup_dofs _) as [f1|e]; [|left; by exists e]. simpl.
  destruct (fluid_initialize_system _) as [f2|e]; [|left; by exists e]. simpl.
  destruct (solid_setup_dofs _) as [s1|e]; [|left; by exists e]. simpl.
  destruct (solid_initialize_system _) as [s2|e]; [|left; by exists e]. simpl.
  match goal with |- context [run_loop dim fuel true (?w, ?l)] =>
    destruct (run_loop_passes_or_throws n fuel true w l Hgo Hstop Hfuel)
      as [[e He]|(fsi' & evs & Hrun & Hcs & Ht)] end.
  - left. by exists e.
  - right. by exists fsi', evs.
Qed.

(** A loop that returns has made a pass each time it found the guard
    true, and has stopped the first time it found it false. *)
Lemma run_loop_Done_guards (fuel : nat) (first_step : bool)
    (fsi fsi' : FSI double) log log' :
  run_loop dim fuel first_step (fsi, log) = Done (fsi', log') →
  ∃ k evs,
    log' = log ++ evs ∧ is_cycles k first_step evs ∧
    time fsi' = Nat.iter k increment (time fsi) ∧
    (∀ j, j < k → not_finished (Nat.iter j increment (time fsi)) = true) ∧
    not_finished (Nat.iter k increment (time fsi)) = false.
Proof.
  revert first_step fsi log.
  induction fuel as [|fuel IH]; intros first_step fsi log; [done|].
  cbn [run_loop fst]. destruct (not_finished (time fsi)) eqn:Hguard.
  - destruct (cycle dim first_step (fsi, log)) as [[fsi1 log1]|] eqn:Hc; [|done].
    apply cycle_Ok_inv in Hc as (evs1 & -> & Hc1 & Ht1 & _).
    intros (k & evs & -> & Hcs & Ht & Hgo & Hstop)%IH.
    exists (S k), (evs1 ++ evs). split; [by rewrite app_assoc|].
    split; [by exists evs1, evs|].
    split; [by rewrite Nat.iter_succ_r, Ht, Ht1|]. split.
    + intros [|j] Hj; [done|]. rewrite Nat.iter_succ_r, <- Ht1. apply Hgo. lia.
    + by rewrite Nat.iter_succ_r, <- Ht1.
  - intros [= <- <-]. exists 0, []. split; [by rewrite app_nil_r|].
    split; [done|]. split; [done|]. split; [intros j Hj; lia|done].
Qed.

Lemma run_Done_guards (fuel : nat) (fsi final : FSI double)
    (log : list (event double)) :
  run dim fuel fsi = Done (final, log) →
  ∃ k evs,
    log = prologue (global_refinement (parameters fsi)) ++ evs ∧
    is_cycles k true evs ∧
    time final = Nat.iter k increment (time fsi) ∧
    (∀ j, j < k → not_finished (Nat.iter j increment (time fsi)) = true) ∧
    not_finished (Nat.iter k increment (time fsi)) = false.
Proof.
  unfold run, initialize_system.
  destruct (refine_global _ _) as [f0|]; [|done]. simpl.
  destruct (fluid_setup_dofs _) as [f1|]; [|done]. simpl.
  destruct (fluid_initialize_system _) as [f2|]; [|done]. simpl.
  destruct (solid_setup_dofs _) as [s1|]; [|done]. simpl.
  destruct (solid_initialize_system _) as [s2|]; [|done]. simpl.
  intros (k & evs & -> & Hcs & Ht & Hgo & Hstop)%run_loop_Done_guards.
  by exists k, evs.
Qed.

(** [run] is its prologue, then its loop. *)
Lemma run_loop_entry (fuel : nat) (fsi : FSI double) :
  run dim fuel fsi =
  match loop_entry fsi with
  | Ok st => run_loop dim fuel true st
  | Throw e => Uncaught e
  end.
Proof.
  unfold run, loop_entry.
  destruct (refine_global _ _) as [f0|e]; [|done]. by cbn [mbind result_bind].
Qed.

(** After [k] full passes the loop goes on from where they end. *)
Lemma run_loop_after_passes (k fuel : nat) (first_step : bool)
    (st st' : FSI double * list (event double)) :
  after_passes dim k first_step st = Some st' →
  run_loop dim (k + fuel) first_step st =
  run_loop dim fuel (match k with 0 => first_step | S _ => false end) st'.
Proof.
  revert first_step st. induction k as [|k IH]; intros first_step st.
  - by intros [= ->].
  - cbn [after_passes Nat.add run_loop].
    destruct (not_finished (time st.1)); [|done].
    destruct (cycle dim first_step st) as [st1|]; [|done].
    intros Hk. rewrite (IH _ _ Hk). by destruct k.
Qed.
End driver_returns.

(** ** [run] in exact arithmetic, for any number of steps *)

Section run_exact.
Context `{!Opaque, !Collaborators Qc}.
Variable dim : nat.

Lemma lit_nat (k : nat) :
  (this (lit (Z.of_nat k) 0) == inject_Z (Z.of_nat k))%Q.
Proof. cbn [lit Qc_scalar Q2Qc this]. rewrite Qred_correct. simpl. ring. Qed.

Lemma lit_nat_succ (k : nat) :
  lit (Z.of_nat (S k)) 0 = (lit (Z.of_nat k) 0 + 1)%Qc.
Proof.
  apply Qc_is_canon. unfold Qcplus, Q2Qc. cbn [this]. rewrite Qred_correct.
  rewrite !lit_nat, Nat2Z.inj_succ. unfold Z.succ. rewrite inject_Z_plus.
  reflexivity.
Qed.

(** After [k] increments from t=0 the time is [k] steps. *)
Lemma time_after_increments (e st : Qc) (k : nat) :
  Nat.iter k increment (Time_ctor e st) =
  {| time_end := e; get_delta_t := st;
     time_current := fmul (lit (Z.of_nat k) 0) st |}.
Proof.
  induction k as [|k IH].
  - cbn [Nat.iter nat_rect]. unfold Time_ctor. f_equal.
    apply Qc_is_canon. unfold zero. cbn [fmul Qc_scalar]. unfold Qcmult, Q2Qc.
    cbn [this]. rewrite Qred_correct, lit_nat.
    change (this (lit 0 0)) with 0%Q. change (inject_Z (Z.of_nat 0)) with 0%Q.
    ring.
  - rewrite Nat.iter_succ, IH. unfold increment.
    cbn [time_end get_delta_t time_current fadd fmul Qc_scalar].
    f_equal. rewrite lit_nat_succ. ring.
Qed.

(** Rational inequalities on the guard, read in [Q]. *)
Ltac guard_in_Q :=
  unfold Qclt, Qcle, Qcminus, Qcplus, Qcopp, Qcmult, Q2Qc in *; cbn [this] in *;
  rewrite ?Qred_correct, ?lit_nat in *;
  change (this 0%Qc) with 0%Q in *.

Lemma guard_earlier (e st : Qc) (k m : nat) :
  (0 < st)%Qc → k ≤ m →
  (lit 1 (-12) < e - lit (Z.of_nat m) 0 * st)%Qc →
  (lit 1 (-12) < e - lit (Z.of_nat k) 0 * st)%Qc.
Proof.
  intros Hst Hkm Hm. guard_in_Q.
  assert (inject_Z (Z.of_nat k) <= inject_Z (Z.of_nat m))%Q as Hle.
  { rewrite <- Zle_Qle. lia. }
  nra.
Qed.

Lemma guard_without_progress (e st : Qc) (k : nat) :
  (st ≤ 0)%Qc →
  (lit 1 (-12) < e)%Qc →
  (lit 1 (-12) < e - lit (Z.of_nat k) 0 * st)%Qc.
Proof.
  intros Hst He. guard_in_Q.
  assert (0 <= inject_Z (Z.of_nat k))%Q as Hk.
  { change 0%Q with (inject_Z 0). rewrite <- Zle_Qle. lia. }
  nra.
Qed.

Lemma not_finished_after (e st : Qc) (k : nat) :
  not_finished (Nat.iter k increment (Time_ctor e st)) =
  bool_decide (lit 1 (-12) < e - lit (Z.of_nat k) 0 * st)%Qc.
Proof. by rewrite time_after_increments. Qed.

(** X2.  In exact arithmetic, from t=0 and when no collaborator throws:
    [run] makes exactly [n] passes when [n] is the first number of steps
    that brings the time to within 1e-12 of the end time or past it (the
    step being positive); it stops at [n] steps, which is past the end time
    when the end time is no whole number of steps, by less than a step. *)
Theorem run_pass_count (f : FluidSolver Qc) (s : SolidSolver Qc)
    (p : AllParameters Qc) (n fuel : nat) :
  never_throws →
  (0 < time_step p)%Qc →
  (end_time p - lit (Z.of_nat n) 0 * time_step p ≤ lit 1 (-12))%Qc →
  (n = 0 ∨
   (lit 1 (-12) < end_time p - lit (Z.of_nat (n - 1)) 0 * time_step p)%Qc) →
  n < fuel →
  ∃ final evs,
    run dim fuel (FSI_ctor f s p) =
      Done (final, prologue (global_refinement p) ++ evs) ∧
    is_cycles n true evs ∧
    time_current (time final) = (lit (Z.of_nat n) 0 * time_step p)%Qc ∧
    (0 < n →
     (time_current (time final) - end_time p < time_step p - lit 1 (-12))%Qc).
Proof.
  intros Hnt Hstep Hstop Hgo Hfuel.
  destruct (run_cycles dim n fuel (FSI_ctor f s p) Hnt)
    as (final & evs & Hrun & Hcs & Ht); [| |done|].
  - intros k Hk. cbn [FSI_ctor time]. rewrite not_finished_after.
    apply bool_decide_eq_true. destruct Hgo as [->|Hgo]; [lia|].
    apply guard_earlier with (n - 1); [done|lia|done].
  - cbn [FSI_ctor time]. rewrite not_finished_after.
    apply bool_decide_eq_false. by apply Qcle_not_lt.
  - exists final, evs. split; [done|]. split; [done|].
    cbn [FSI_ctor time] in Ht. rewrite Ht, time_after_increments.
    cbn [time_current fmul Qc_scalar]. split; [done|].
    intros Hn. destruct Hgo as [->|Hgo]; [lia|].
    replace n with (S (n - 1)) at 1 by lia. rewrite lit_nat_succ.
    clear Hstop Hrun Ht. guard_in_Q. nra.
Qed.

(** X3.  In exact arithmetic, from t=0 and when no collaborator throws:
    with a time step that is zero or negative and an end time above 1e-12
    the loop of [run] never ends: [run] is out of fuel whatever fuel it is
    given. *)
Theorem run_without_progress (f : FluidSolver Qc) (s : SolidSolver Qc)
    (p : AllParameters Qc) (fuel : nat) :
  never_throws →
  (time_step p ≤ 0)%Qc →
  (lit 1 (-12) < end_time p)%Qc →
  run dim fuel (FSI_ctor f s p) = OutOfFuel.
Proof.
  intros Hnt Hstep Hend. apply run_goes_on; [done|].
  intros k _. cbn [FSI_ctor time]. rewrite not_finished_after.
  apply bool_decide_eq_true. by apply guard_without_progress.
Qed.

Lemma lit_Z (m : Z) : (this (lit m 0) == inject_Z m)%Q.
Proof. cbn [lit Qc_scalar Q2Qc this]. rewrite Qred_correct. simpl. ring. Qed.

Lemma tolerance_positive : (0 < lit 1 (-12))%Qc.
Proof. done. Qed.

(** The guard of the loop after [k] increments, for an end time of three
    steps. *)
Lemma guard_of_three_steps (st : Qc) (k : nat) :
  not_finished (Nat.iter k increment (Time_ctor (fmul (lit 3 0) st) st)) =
  bool_decide (lit 1 (-12) < lit 3 0 * st - lit (Z.of_nat k) 0 * st)%Qc.
Proof. by rewrite not_finished_after. Qed.

Ltac three_steps_in_Q :=
  pose proof tolerance_positive;
  unfold Qclt, Qcle, Qcminus, Qcplus, Qcopp, Qcmult, Q2Qc in *; cbn [this] in *;
  rewrite ?Qred_correct, ?lit_Z in *;
  change (this 0%Qc) with 0%Q in *;
  change (inject_Z 3) with 3%Q in *;
  change (inject_Z (Z.of_nat 0)) with 0%Q in *;
  change (inject_Z (Z.of_nat 1)) with 1%Q in *;
  change (inject_Z (Z.of_nat 2)) with 2%Q in *;
  change (inject_Z (Z.of_nat 3)) with 3%Q in *.

(** C1, as the code has it.  In exact arithmetic, from t=0: a [run] that
    returns has logged its prologue and then full passes only, each one
    being, in this order, the traction found and given to the solid solver,
    the solid step, the update of the indicator, the force found and given
    to the fluid solver, the fluid step and the increment of the time, the
    steps of the first pass with [first_step] set and the others without;
    it has made a pass each time [end - current > 1e-12] held, the current
    time being one step further after each pass, and has stopped the first
    time it did not hold.  So with an end time of three steps, a [run] out
    of which no exception comes (no solver step and no interpolation it
    calls throws) makes exactly three passes when the step is above the
    tolerance 1e-12 of the guard, and ends with the guard false and the
    current time equal to the end time; with a step of at most 1e-12 it
    makes fewer than three, and none when three steps are at most
    1e-12. *)
Theorem run_three_steps (f : FluidSolver Qc) (s : SolidSolver Qc)
    (p : AllParameters Qc) (fuel : nat) :
  (∀ final log,
     run dim fuel (FSI_ctor f s p) = Done (final, log) →
     ∃ k evs,
       log = prologue (global_refinement p) ++ evs ∧
       is_cycles k true evs ∧
       (∀ j, j < k →
          (lit 1 (-12) < end_time p - lit (Z.of_nat j) 0 * time_step p)%Qc) ∧
       ¬ (lit 1 (-12) < end_time p - lit (Z.of_nat k) 0 * time_step p)%Qc ∧
       time_current (time final) = (lit (Z.of_nat k) 0 * time_step p)%Qc) ∧
  (end_time p = fmul (lit 3 0) (time_step p) →
   3 < fuel →
   (∀ e, run dim fuel (FSI_ctor f s p) ≠ Uncaught e) →
   ((lit 1 (-12) < time_step p)%Qc →
    ∃ final c1 c2 c3,
      run dim fuel (FSI_ctor f s p) =
        Done (final, prologue (global_refinement p) ++ c1 ++ c2 ++ c3) ∧
      is_cycle true c1 ∧ is_cycle false c2 ∧ is_cycle false c3 ∧
      not_finished (time final) = false ∧
      time_current (time final) = time_end (time final)) ∧
   ((time_step p ≤ lit 1 (-12))%Qc →
    ∃ final k evs,
      run dim fuel (FSI_ctor f s p) =
        Done (final, prologue (global_refinement p) ++ evs) ∧
      is_cycles k true evs ∧
      k < 3 ∧
      ((lit 3 0 * time_step p ≤ lit 1 (-12))%Qc → k = 0))).
Proof.
  split.
  { intros final log (k & evs & -> & Hcs & Ht & Hgo & Hstop)%run_Done_guards.
    exists k, evs. split; [done|]. split; [done|].
    cbn [FSI_ctor time parameters] in *. split; [|split].
    - intros j Hj. apply Hgo in Hj. rewrite not_finished_after in Hj.
      by apply bool_decide_eq_true in Hj.
    - rewrite not_finished_after in Hstop. by apply bool_decide_eq_false in Hstop.
    - by rewrite Ht, time_after_increments. }
  intros Hend Hfuel Hno.
  set (st := time_step p) in *.
  assert (∀ n, n < 4 →
            (∀ k, k < n →
               (lit 1 (-12) < lit 3 0 * st - lit (Z.of_nat k) 0 * st)%Qc) →
            ¬ (lit 1 (-12) < lit 3 0 * st - lit (Z.of_nat n) 0 * st)%Qc →
            ∃ final evs,
              run dim fuel (FSI_ctor f s p) =
                Done (final, prologue (global_refinement p) ++ evs) ∧
              is_cycles n true evs ∧
              time final = Nat.iter n increment (Time_ctor (fmul (lit 3 0) st) st))
    as Hpasses.
  { intros n Hn Hgo Hstop.
    destruct (run_passes_or_throws dim n fuel (FSI_ctor f s p))
      as [[e He]|(final & evs & Hrun & Hcs & Ht)].
    - intros k Hk. cbn [FSI_ctor time]. rewrite Hend.
      rewrite guard_of_three_steps. apply bool_decide_eq_true. by apply Hgo.
    - cbn [FSI_ctor time]. rewrite Hend.
      rewrite guard_of_three_steps. by apply bool_decide_eq_false.
    - lia.
    - by apply Hno in He.
    - exists final, evs. split; [done|]. split; [done|].
      cbn [FSI_ctor time] in Ht. by rewrite Hend in Ht. }
  split.
  - intros Hstep. destruct (Hpasses 3) as (final & evs & Hrun & Hcs & Ht); [lia|..].
    + intros k Hk. apply guard_earlier with 2; [|lia|].
      * three_steps_in_Q. lra.
      * three_steps_in_Q. lra.
    + three_steps_in_Q. lra.
    + destruct Hcs
        as (c1 & r1 & -> & Hc1 & c2 & r2 & -> & Hc2 & c3 & r3 & -> & Hc3 & ->).
      exists final, c1, c2, c3. rewrite app_nil_r in Hrun.
      split; [done|]. do 3 (split; [done|]).
      rewrite Ht, time_after_increments.
      cbn [not_finished time_end time_current flt fsub fmul Qc_scalar]. split.
      * apply bool_decide_eq_false. three_steps_in_Q. lra.
      * done.
  - intros Hstep.
    destruct (Qclt_le_dec (lit 1 (-12)) (lit 3 0 * st)) as [H3|H3].
    + destruct (Qclt_le_dec (lit 1 (-12)) (lit 3 0 * st - lit (Z.of_nat 1) 0 * st))
        as [H2|H2].
      * destruct (Hpasses 2) as (final & evs & Hrun & Hcs & _); [lia|..].
        -- intros k Hk. destruct k as [|[|k]]; [| |lia]; [|done].
           three_steps_in_Q. lra.
        -- three_steps_in_Q. lra.
        -- exists final, 2, evs. split; [done|]. split; [done|]. split; [lia|].
           intros Hnone. three_steps_in_Q. lra.
      * destruct (Hpasses 1) as (final & evs & Hrun & Hcs & _); [lia|..].
        -- intros k Hk. destruct k as [|k]; [|lia]. three_steps_in_Q. lra.
        -- three_steps_in_Q. lra.
        -- exists final, 1, evs. split; [done|]. split; [done|]. split; [lia|].
           intros Hnone. three_steps_in_Q. lra.
    + destruct (Hpasses 0) as (final & evs & Hrun & Hcs & _); [lia|..].
      * intros k Hk. lia.
      * three_steps_in_Q. lra.
      * exists final, 0, evs. split; [done|]. split; [done|]. split; [lia|done].
Qed.
End run_exact.

(** ** Exceptions in [run] *)

Section propagation.
Context {double : Type} `{!Scalar double, !Opaque, !Collaborators double}.
Variable dim : nat.

(** A pass in which [find_fluid_fsi] throws, throws. *)
Lemma cycle_force_throws (first_step : bool) (fsi0 : FSI double) log
    (traction : list (Tensor1 double)) (s1 : SolidSolver double) (e : exn) :
  find_solid_bc dim fsi0 = Ok traction →
  solid_run_one_step first_step (set_fluid_traction traction (solid_solver fsi0))
    = Ok s1 →
  find_fluid_fsi dim (update_indicator dim (with_solid s1 fsi0)) = Throw e →
  cycle dim first_step (fsi0, log) = Throw e.
Proof.
  intros Hbc Hsolid Hforce. unfold cycle. rewrite Hbc. cbn [mbind result_bind].
  cbn [solid_solver with_solid]. rewrite Hsolid. cbn [mbind result_bind].
  change (with_solid s1
            (with_solid (set_fluid_traction traction (solid_solver fsi0)) fsi0))
    with (with_solid s1 fsi0).
  by rewrite Hforce.
Qed.

(** A pass that throws after [k] full passes ends [run]. *)
Lemma run_pass_throws (fuel k : nat) (start : FSI double)
    (st0 st : FSI double * list (event double)) (e : exn) :
  loop_entry start = Ok st0 →
  after_passes dim k true st0 = Some st →
  not_finished (time st.1) = true →
  cycle dim (first_step_after k) st = Throw e →
  k < fuel →
  run dim fuel start = Uncaught e.
Proof.
  intros Hentry Hpasses Hguard Hthrow Hfuel.
  rewrite run_loop_entry, Hentry.
  replace fuel with (k + S (fuel - S k)) by lia.
  rewrite (run_loop_after_passes dim k _ true st0 st Hpasses).
  cbn [run_loop]. rewrite Hguard.
  change (match k with 0 => true | S _ => false end) with (first_step_after k).
  by rewrite Hthrow.
Qed.

(** C4, as the code has it.  When a solid interpolation throws at a
    quadrature point of a fluid cell whose indicator is not 0 (that of the
    acceleration, or that of a stress component), [find_fluid_fsi] throws:
    there is no fallback, and no vector is returned.  The exception goes on
    through [run], which catches nothing: in whatever pass of [run] the
    call of [find_fluid_fsi] is the one on this state (after [k] full
    passes, the traction having been found and the solid step made),
    [run] ends there with that exception. *)
Theorem find_fluid_fsi_interpolation_throws (fsi : FSI double)
    (c : FluidCell * CellProperty double) (q : nat) (e : exn) :
  let s := solid_solver fsi in
  let f := fluid_solver fsi in
  let x := quadrature_point c.1 q in
  c ∈ immersed_cells f → q < n_q_points f →
  (solid_point_value (solid_vertices s) (solid_cells s)
     (current_acceleration s) x = Throw e ∨
   ∃ i j, i < dim ∧ j < dim ∧
     dg_point_value (solid_vertices s) (solid_cells s) (stress s i j) x
     = Throw e) →
  ∃ e',
    find_fluid_fsi dim fsi = Throw e' ∧
    ∀ (start : FSI double) (fuel k : nat) st0 fsi0 log traction s1,
      loop_entry start = Ok st0 →
      after_passes dim k true st0 = Some (fsi0, log) →
      not_finished (time fsi0) = true →
      find_solid_bc dim fsi0 = Ok traction →
      solid_run_one_step (first_step_after k)
        (set_fluid_traction traction (solid_solver fsi0)) = Ok s1 →
      update_indicator dim (with_solid s1 fsi0) = fsi →
      k < fuel →
      run dim fuel start = Uncaught e'.
Proof.
  intros s f x Hc Hq Hthrow.
  assert (∃ e', find_fluid_fsi dim fsi = Throw e') as [e' He'].
  { unfold find_fluid_fsi.
    apply list_elem_of_filter in Hc as [Hnz Hc].
    apply for_each_throws with c; [done|]. intros out.
    rewrite fsi_cell_points by done.
    apply for_range_throws with q; [done|]. intros out'.
    unfold fsi_point. fold s x.
    destruct Hthrow as [Hacc|(i & j & Hi & Hj & Hsig)].
    - unfold solid_acc_at. rewrite Hacc. simpl. eauto.
    - destruct (solid_acc_at dim s x); simpl; [|eauto].
      destruct (solid_sigma_at_throws dim s x i j e Hi Hj Hsig) as [e' ->].
      simpl. eauto. }
  exists e'. split; [done|].
  intros start fuel k st0 fsi0 log traction s1 Hentry Hpasses Hguard Hbc Hsolid
    Hstate Hfuel.
  apply (run_pass_throws fuel k start st0 (fsi0, log)); [done..| |done].
  apply (cycle_force_throws _ _ _ traction s1); [done..|]. by rewrite Hstate.
Qed.

(** X11.  [run] catches nothing and retries nothing: it ends with the
    exception [e] exactly when its prologue throws [e] (the refinement or
    [initialize_system]), or when, after some full passes each entered
    with the guard true, the next pass is entered and throws [e]; no pass
    is made after one that threw. *)
Theorem run_exception_propagates (fuel : nat) (start : FSI double) (e : exn) :
  run dim fuel start = Uncaught e ↔
  loop_entry start = Throw e ∨
  ∃ k st0 st,
    k < fuel ∧
    loop_entry start = Ok st0 ∧
    after_passes dim k true st0 = Some st ∧
    not_finished (time st.1) = true ∧
    cycle dim (first_step_after k) st = Throw e.
Proof.
  split.
  - rewrite run_loop_entry.
    destruct (loop_entry start) as [st0|e0]; [|intros [= ->]; by left].
    intros Hloop. right.
    assert (∀ fuel first_step st,
              run_loop dim fuel first_step st = Uncaught e →
              ∃ k st',
                k < fuel ∧ after_passes dim k first_step st = Some st' ∧
                not_finished (time st'.1) = true ∧
                cycle dim (match k with 0 => first_step | S _ => false end) st'
                = Throw e) as Hinv.
    { clear. intros fuel. induction fuel as [|fuel IH]; intros first_step st;
        [done|].
      cbn [run_loop]. destruct (not_finished (time st.1)) eqn:Hguard; [|done].
      destruct (cycle dim first_step st) as [st1|e1] eqn:Hc.
      - intros (k & st' & Hk & Hpasses & Hguard' & Hthrow)%IH.
        exists (S k), st'. split; [lia|]. cbn [after_passes].
        rewrite Hguard, Hc. split; [done|]. split; [done|].
        by destruct k.
      - intros [= ->]. exists 0, st. split; [lia|done]. }
    destruct (Hinv fuel true st0 Hloop) as (k & st & Hk & Hpasses & Hguard & Hc).
    by exists k, st0, st.
  - intros [Hentry|(k & st0 & st & Hk & Hentry & Hpasses & Hguard & Hthrow)].
    + by rewrite run_loop_entry, Hentry.
    + by apply (run_pass_throws fuel k start st0 st).
Qed.
End propagation.


(** ** [main] *)

Section command_line.
Context {double : Type} `{!Scalar double, !Harness double}.

(** C10.  [main] takes the name of the parameter file from its first
    argument when there is one and "parameters.prm" when there is none,
    whatever follows the first argument.  It returns 0, having written
    nothing to [std::cerr], or else something was thrown and it returns 1
    after writing a diagnostic to [std::cerr].  It returns 0 exactly on
    success: when the parameters were read from that file, for two
    dimensions, and the solver ran and ended with a maximal velocity below
    0.05 in absolute value. *)
Theorem main_exit_code (argv : list string) :
  infile_of argv =
    match argv with
    | _ :: path :: _ => path
    | _ => "parameters.prm"%string
    end ∧
  (main argv = (0%Z, ""%string) ∨
   ∃ e, main_try argv = Throw e ∧
        main argv = (1%Z, diagnostic e) ∧ diagnostic e ≠ ""%string) ∧
  (main argv = (0%Z, ""%string) ↔
   ∃ params vmax,
     mpi_init argv = Ok () ∧
     read_parameters (infile_of argv) = Ok params ∧
     dimension params = 2 ∧
     scnsim_max_velocity params = Ok vmax ∧
     flt (fabs vmax) (lit 5 (-2)) = true).
Proof.
  split; [|split].
  - unfold infile_of. by destruct argv as [|prog [|path rest]].
  - unfold main. destruct (main_try argv) as [[]|e]; [by left|right].
    exists e. split; [done|]. split; [done|]. by destruct e.
  - unfold main, main_try. split.
    + destruct (mpi_init argv) as [[]|]; simpl; [|done].
      destruct (read_parameters (infile_of argv)) as [params|]; simpl; [|done].
      destruct (decide (dimension params = 2)) as [Hdim|]; [|done].
      destruct (scnsim_max_velocity params) as [vmax|] eqn:Hrun; simpl; [|done].
      destruct (flt (fabs vmax) (lit 5 (-2))) eqn:Hv; [|done].
      intros _. by exists params, vmax.
    + intros (params & vmax & Hmpi & Hread & Hdim & Hrun & Hv).
      rewrite Hmpi. cbn [mbind result_bind]. rewrite Hread.
      cbn [mbind result_bind]. rewrite decide_True by done.
      rewrite Hrun. cbn [mbind result_bind]. by rewrite Hv.
Qed.
End command_line.

(** * The theorems at work on the small configuration *)

Section instances.
#[local] Existing Instance Toy.opaque.

(** Laws of exact arithmetic. *)
Lemma Qc_add_sub (a b : Qc) : fsub (fadd a b) b = a.
Proof. cbn [fsub fadd Qc_scalar]. ring. Qed.

Lemma Qc_add_sub_add (a b : Qc) : fadd (fsub (fadd a b) b) b = fadd a b.
Proof. cbn [fsub fadd Qc_scalar]. ring. Qed.

Lemma toy_never_throws {double : Type} `{!Scalar double} :
  never_throws (Collaborators0 := Toy.collaborators (double := double) false).
Proof. repeat split; intros; by eexists. Qed.

(** C1 fails as stated: with a step of 1e-13, below the tolerance of the
    loop guard, and an end time of three steps, [run] in exact arithmetic
    makes no pass at all, although nothing throws. *)
Lemma run_three_steps_counterexample :
  let C := Toy.collaborators (double := Qc) false in
  let fsi := Toy.state_with (lit 1 (-13)) (lit 0 0) [0; 0; 0; 0]%Z in
  end_time (parameters fsi) = fmul (lit 3 0) (time_step (parameters fsi)) ∧
  time_current (time fsi) = zero ∧
  run (Collaborators0 := C) 2 4 fsi = Done (fsi, prologue 0) ∧
  ¬ ∃ fuel final c1 c2 c3,
      run (Collaborators0 := C) 2 fuel fsi =
        Done (final, prologue 0 ++ c1 ++ c2 ++ c3) ∧
      is_cycle true c1 ∧ is_cycle false c2 ∧ is_cycle false c3.
Proof.
  intros C fsi. split; [done|]. split; [done|]. split; [by vm_compute|].
  intros (fuel & final & c1 & c2 & c3 & Hrun & (t1 & s1 & a1 & ->) & _).
  destruct fuel as [|fuel]; vm_compute in Hrun; discriminate.
Qed.

(** The same on binary64, where three steps of a tenth give three passes
    (five calls of the prologue and eighteen of the loop) and three steps of
    1e-13 give none. *)
Example run_binary64 :
  let C := Toy.collaborators (double := float) false in
  (match run (Collaborators0 := C) 2 10
           (Toy.state_with (lit 1 (-1)) (lit 0 0) [0; 0; 0; 0]%Z) with
   | Done (_, log) => Some (length log)
   | _ => None
   end) = Some 23 ∧
  (match run (Collaborators0 := C) 2 10
           (Toy.state_with (lit 1 (-13)) (lit 0 0) [0; 0; 0; 0]%Z) with
   | Done (_, log) => Some (length log)
   | _ => None
   end) = Some 5.
Proof. intros C. split; by vm_compute. Qed.

(** C1 at work: three steps of a tenth, in exact arithmetic, with
    interpolations that throw outside the meshes, as those of deal.II do;
    the run asks for none there. *)
Lemma run_three_steps_witness :
  let C := Toy.collaborators (double := Qc) true in
  let fsi := Toy.state (double := Qc) (lit 0 0) [0; 0; 0; 0]%Z in
  ∃ final c1 c2 c3,
    run (Collaborators0 := C) 2 4 fsi =
      Done (final, prologue 0 ++ c1 ++ c2 ++ c3) ∧
    is_cycle true c1 ∧ is_cycle false c2 ∧ is_cycle false c3 ∧
    not_finished (time final) = false ∧
    time_current (time final) = time_end (time final).
Proof.
  intros C fsi.
  refine (proj1 (proj2 (run_three_steps (Collaborators0 := C) 2
                          (Toy.fluid [0; 0; 0; 0]%Z) (Toy.solid (lit 0 0))
                          (Toy.params (fmul (lit 3 0) (lit 1 (-1))) (lit 1 (-1)))
                          4)
                   _ _ _) _).
  - reflexivity.
  - lia.
  - intros e He. vm_compute in He. discriminate.
  - by vm_compute.
Defined.

(** C3 at work.  The solid at rest under a fluid whose first cell is
    marked: the two quadrature points of that cell are in the solid, and
    the interpolation there gives the fields themselves. *)
Lemma find_fluid_fsi_discrepancies_witness :
  let C := Toy.collaborators (double := Qc) true in
  let fsi := Toy.state (double := Qc) (lit 0 0) [1; 0; 0; 0]%Z in
  find_fluid_fsi (Collaborators0 := C) 2 fsi =
  Ok ([[[lit 0 0; lit (-7) 0]; [lit (-7) 0; lit (-5) 0]];
       [[lit (-1) 0; lit (-7) 0]; [lit (-7) 0; lit (-6) 0]]],
      [[lit 11 0; lit 12 0]; [lit 12 0; lit 17 0]]).
Proof.
  intros C fsi.
  rewrite (find_fluid_fsi_discrepancies (Collaborators0 := C) 2 fsi
             (λ _, current_acceleration (solid_solver fsi))
             (λ i j _, stress (solid_solver fsi) i j)).
  - by vm_compute.
  - intros c q Hc Hq.
    apply list_elem_of_singleton in Hc as ->.
    destruct q as [|[|q]]; [| |vm_compute in Hq; lia]; by vm_compute.
Defined.

(** C6 at work on the same state: one marked cell, two quadrature
    points. *)
Lemma find_fluid_fsi_lengths_witness :
  let C := Toy.collaborators (double := Qc) true in
  let fsi := Toy.state (double := Qc) (lit 0 0) [1; 0; 0; 0]%Z in
  ∃ fsi_stress fsi_acceleration,
    find_fluid_fsi (Collaborators0 := C) 2 fsi =
      Ok (fsi_stress, fsi_acceleration) ∧
    length fsi_stress = length fsi_acceleration ∧
    length fsi_stress = 1 * 2.
Proof.
  intros C fsi.
  destruct (find_fluid_fsi (Collaborators0 := C) 2 fsi)
    as [[fsi_stress fsi_acceleration]|e] eqn:E; [|by vm_compute in E].
  exists fsi_stress, fsi_acceleration. split; [done|].
  apply (find_fluid_fsi_lengths (Collaborators0 := C) 2 fsi); [|done].
  vm_compute.
  repeat (apply Forall_cons_2; [solve [by left | by right]|]).
  apply Forall_nil_2.
Defined.

(** C4 fails as stated.  On binary64, a solid over [-0.5, 0.75] x [0, 1]
    displaced by 0.4 along x: [update_indicator] marks the first fluid
    cell, whose second quadrature point (0.75, 0.5) is on the boundary of
    the solid, and puts the mesh back with its right side at
    0.75 - 2^-53.  The point is then outside by one unit in the last
    place, the interpolation there throws, and so does [find_fluid_fsi]:
    it returns no vector, let alone zero entries. *)
Lemma find_fluid_fsi_fallback_counterexample :
  let C := Toy.collaborators (double := float) true in
  let start :=
    FSI_ctor (Toy.fluid [0; 0; 0; 0]%Z)
      (Toy.solid_box (lit (-5) (-1)) (lit 75 (-2)) (lit 0 0) (lit 1 0)
         (lit 4 (-1)) (lit 0 0))
      (Toy.params (lit 3 (-1)) (lit 1 (-1))) in
  let fsi := update_indicator (Collaborators0 := C) 2 start in
  let c := (0, {| indicator := 1; get_mu := lit 2 0 |}) in
  let s := solid_solver fsi in
  let x := quadrature_point (Collaborators := C) c.1 1 in
  solid_vertices (solid_solver start) =
    [[-0.5; 0]; [0.75; 0]; [-0.5; 1]; [0.75; 1]]%float ∧
  fluid_cells (fluid_solver fsi) !! 0 = Some c ∧
  x = [0.75; 0.5]%float ∧
  solid_vertices s =
    [[-0.5; 0]; [0x1.7ffffffffffffp-1; 0];
     [-0.5; 1]; [0x1.7ffffffffffffp-1; 1]]%float ∧
  (0.75 - 0x1.7ffffffffffffp-1 = 0x1p-53)%float ∧
  solid_point_value (Collaborators := C) (solid_vertices s) (solid_cells s)
    (current_acceleration s) x = Throw Toy.not_available ∧
  find_fluid_fsi (Collaborators0 := C) 2 fsi = Throw Toy.not_available ∧
  ¬ ∃ fsi_stress fsi_acceleration,
      find_fluid_fsi (Collaborators0 := C) 2 fsi =
      Ok (fsi_stress, fsi_acceleration).
Proof.
  intros C start fsi c s x. do 6 (split; [by vm_compute|]).
  assert (find_fluid_fsi (Collaborators0 := C) 2 fsi = Throw Toy.not_available)
    as Hthrow by (by vm_compute).
  split; [done|]. intros (st & ac & Hret). congruence.
Qed.

(** C4, as the code has it, at work on that solid: the first pass of [run]
    finds the traction, makes the solid step, updates the indicator, and
    ends on the exception of the interpolation. *)
Lemma find_fluid_fsi_interpolation_throws_witness :
  let C := Toy.collaborators (double := float) true in
  let start :=
    FSI_ctor (Toy.fluid [0; 0; 0; 0]%Z)
      (Toy.solid_box (lit (-5) (-1)) (lit 75 (-2)) (lit 0 0) (lit 1 0)
         (lit 4 (-1)) (lit 0 0))
      (Toy.params (lit 3 (-1)) (lit 1 (-1))) in
  run (Collaborators0 := C) 2 5 start = Uncaught Toy.not_available.
Proof.
  intros C start.
  pose (traction := match find_solid_bc (Collaborators0 := C) 2 start with
                    | Ok t => t
                    | Throw _ => []
                    end).
  pose (s1 := set_fluid_traction traction (solid_solver start)).
  pose (fsi := update_indicator (Collaborators0 := C) 2 (with_solid s1 start)).
  destruct (find_fluid_fsi_interpolation_throws (Collaborators0 := C) 2 fsi
              (0, {| indicator := 1; get_mu := lit 2 0 |}) 1 Toy.not_available)
    as (e' & Hthrow & Hrun).
  - apply list_elem_of_filter. split; [done|].
    apply (list_elem_of_lookup_2 _ 0). by vm_compute.
  - vm_compute. lia.
  - left. by vm_compute.
  - vm_compute in Hthrow. injection Hthrow as <-.
    apply (Hrun start 5 0 (start, prologue 0) start (prologue 0) traction s1);
      [by vm_compute..|lia].
Defined.

(** C5 at work.  The faces x = 1, y = 0 and y = 1 of the solid take a
    traction; the face x = 0 has a Dirichlet condition. *)
Lemma find_solid_bc_tractions_witness :
  let C := Toy.collaborators (double := Qc) true in
  let fsi := Toy.state (double := Qc) (lit 0 0) [0; 0; 0; 0]%Z in
  find_solid_bc (Collaborators0 := C) 2 fsi =
  Ok [[lit (-2) 0; lit 1 0]; [lit (-1) 0; lit 0 0]; [lit 1 0; lit 0 0]] ∧
  length (traction_faces 2 fsi) = 3.
Proof.
  intros C fsi.
  destruct (find_solid_bc_tractions (Collaborators0 := C) 2 fsi
              (λ _, present_solution (fluid_solver fsi))
              (λ _ i, [present_solution (fluid_solver fsi) i;
                       present_solution (fluid_solver fsi) (i + 1)]))
    as [Hret Hlen].
  - intros cf q Hcf Hq.
    assert (q = 0) as -> by (vm_compute in Hq; lia).
    apply list_elem_of_filter in Hcf as [_ Hcf].
    vm_compute in Hcf.
    repeat (apply elem_of_cons in Hcf as [->|Hcf]; [by vm_compute|]).
    by apply elem_of_nil in Hcf.
  - split; [|by vm_compute]. rewrite Hret. by vm_compute.
Defined.

(** C7 at work.  In exact arithmetic forward and back is the identity: the
    tolerance can be equality. *)
Lemma move_solid_mesh_there_and_back_witness :
  let C := Toy.collaborators (double := Qc) true in
  let fsi := Toy.state (double := Qc) (lit 1 (-1)) [0; 0; 0; 0]%Z in
  solid_vertices (solid_solver (move_solid_mesh 2 true fsi)) =
    [[lit 1 (-1); lit 0 0]; [lit 11 (-1); lit 0 0];
     [lit 1 (-1); lit 1 0]; [lit 11 (-1); lit 1 0]] ∧
  Forall2 (Forall2 eq)
    (solid_vertices (solid_solver (move_solid_mesh 2 false (move_solid_mesh 2 true fsi))))
    (solid_vertices (solid_solver fsi)).
Proof.
  intros C fsi.
  destruct (move_solid_mesh_there_and_back_close (Collaborators0 := C) 2 fsi eq)
    as (Hmove & Hback & _).
  - done.
  - apply Qc_add_sub.
  - repeat constructor.
  - split; [|done]. rewrite Hmove. by vm_compute.
Defined.

(** On binary64 moving forward, back and forward again can end one unit in
    the last place below the first forward position, at a tie in the
    rounding. *)
Example forward_again_binary64 :
  let a := 0x1.8000000000001p-1%float in
  let b := (-0x1.0000000000001p-2)%float in
  fadd a b = 0x1p-1%float ∧
  fadd (fsub (fadd a b) b) b = 0x1.fffffffffffffp-2%float.
Proof. split; by vm_compute. Qed.

(** C8 fails as stated.  On binary64, a solid over [0, 1] x [0, 0.68]
    displaced by -0.18 along y has its upper side at 0.5, on the quadrature
    points of the first fluid cell, which the first [update_indicator]
    marks.  It puts the upper side back one unit in the last place below
    0.68; moved forward again it is below 0.5, and the second
    [update_indicator], with the same displacement and meshes, unmarks the
    cell. *)
Lemma update_indicator_twice_counterexample :
  let C := Toy.collaborators (double := float) true in
  let fsi :=
    FSI_ctor (Toy.fluid [0; 0; 0; 0]%Z)
      (Toy.solid_box (lit 0 0) (lit 1 0) (lit 0 0) (lit 68 (-2))
         (lit 0 0) (lit (-18) (-2)))
      (Toy.params (lit 3 (-1)) (lit 1 (-1))) in
  let once := update_indicator (Collaborators0 := C) 2 fsi in
  let twice := update_indicator (Collaborators0 := C) 2 once in
  solid_vertices (solid_solver (move_solid_mesh 2 true fsi)) !! 3 =
    Some [1; 0.5]%float ∧
  solid_vertices (solid_solver (move_solid_mesh 2 true once)) !! 3 =
    Some [1; 0x1.fffffffffffffp-2]%float ∧
  (indicator ∘ snd) <$> fluid_cells (fluid_solver once) = [1; 0; 0; 0]%Z ∧
  (indicator ∘ snd) <$> fluid_cells (fluid_solver twice) = [0; 0; 0; 0]%Z ∧
  fluid_cells (fluid_solver twice) ≠ fluid_cells (fluid_solver once).
Proof.
  intros C fsi once twice. do 4 (split; [by vm_compute|]).
  intros Hsame.
  apply (f_equal (fmap (indicator ∘ snd))) in Hsame.
  vm_compute in Hsame. discriminate.
Qed.

(** C8, as the code has it, at work on binary64: the solid moved forward
    by 0.001 covers the first fluid cell, both times, though it is put
    back one unit in the last place short of where it was. *)
Lemma update_indicator_twice_witness :
  let C := Toy.collaborators (double := float) true in
  let fsi := Toy.state (double := float) (lit 1 (-3)) [0; 0; 0; 0]%Z in
  (indicator ∘ snd) <$>
    fluid_cells (fluid_solver (update_indicator (Collaborators0 := C) 2
                                 (update_indicator (Collaborators0 := C) 2 fsi)))
  = [1; 0; 0; 0]%Z.
Proof.
  intros C fsi.
  rewrite (proj1 (update_indicator_twice (Collaborators0 := C) 2 fsi)).
  - by vm_compute.
  - intros i x r Hx Hr.
    destruct i as [|[|[|[|i]]]]; [..|done];
      vm_compute in Hx; injection Hx as <-;
      vm_compute in Hr; injection Hr as <-; by vm_compute.
Defined.


(** On binary64 the way back is not exact: a displacement of 0.001 leaves
    the vertices at x = 1 one unit in the last place short, and moving
    forward again gives the same forward position all the same. *)
Example there_and_back_binary64 :
  let C := Toy.collaborators (double := float) true in
  let fsi := Toy.state (double := float) (lit 1 (-3)) [0; 0; 0; 0]%Z in
  let fsi' := update_indicator (Collaborators0 := C) 2 fsi in
  solid_vertices (solid_solver fsi') =
    [[0; 0]; [0x1.fffffffffffffp-1; 0]; [0; 1]; [0x1.fffffffffffffp-1; 1]]%float ∧
  solid_vertices (solid_solver (move_solid_mesh 2 true fsi')) =
  solid_vertices (solid_solver (move_solid_mesh 2 true fsi)).
Proof. intros C fsi fsi'. split; by vm_compute. Qed.
(** Three command lines on binary64: no argument, a file that does not
    exist, a file that asks for three dimensions. *)
Example main_binary64 :
  let H := Toy.harness (double := float) in
  main (Harness0 := H) ["prog"]%string = (0%Z, ""%string) ∧
  main (Harness0 := H) ["prog"; "nowhere.prm"]%string =
    (1%Z, diagnostic (std_exception "no such file")) ∧
  main (Harness0 := H) ["prog"; "3d.prm"; "more"]%string =
    (1%Z, diagnostic (std_exception "ExcNotImplemented")).
Proof. intros H. repeat split; by vm_compute. Qed.
End instances.

(** * Further properties of the code *)


(** ** [update_indicator] and [find_fluid_fsi], further *)

Section indicator_further.
Context {double : Type} `{!Scalar double, !Opaque, !Collaborators double}.
Variable dim : nat.

(** X4.  [update_indicator] in its two degenerate cases: with a quadrature
    that has no point every fluid cell is marked 1, since [is_solid] starts
    out true; with a solid mesh that has no cell, and a quadrature with a
    point, every fluid cell is marked 0. *)
Theorem update_indicator_degenerate (fsi : FSI double) :
  let cells' := fluid_cells (fluid_solver (update_indicator dim fsi)) in
  (n_q_points (fluid_solver fsi) = 0 →
   Forall (λ c, indicator c.2 = 1%Z) cells') ∧
  (solid_cells (solid_solver fsi) = [] → 0 < n_q_points (fluid_solver fsi) →
   Forall (λ c, indicator c.2 = 0%Z) cells').
Proof.
  intros cells'. unfold cells'. rewrite update_indicator_fluid.
  cbn [fluid_cells set_fluid_cells]. split.
  - intros ->. apply Forall_fmap, Forall_forall. by intros c _.
  - intros Hnone Hn. apply Forall_fmap, Forall_forall. intros c _.
    unfold compose, update_cell. cbn [snd indicator set_indicator].
    destruct (n_q_points (fluid_solver fsi)) as [|n]; [lia|].
    cbn [is_solid_from solid_cells set_solid_vertices]. by rewrite Hnone.
Qed.

(** X5.  [update_indicator] starts from scratch: whatever indicators the
    fluid cells carried before the call, they carry afterwards the ones
    computed from the quadrature points and the solid. *)
Theorem update_indicator_forgets (fsi : FSI double)
    (old : FluidCell * CellProperty double → Z) :
  let f := fluid_solver fsi in
  let relabelled := (λ c, (c.1, set_indicator (old c) c.2)) <$> fluid_cells f in
  fluid_cells
    (fluid_solver
       (update_indicator dim (with_fluid (set_fluid_cells relabelled f) fsi))) =
  fluid_cells (fluid_solver (update_indicator dim fsi)).
Proof.
  intros f relabelled. rewrite !update_indicator_fluid.
  cbn [fluid_cells set_fluid_cells fluid_solver solid_solver with_fluid
       n_q_points].
  unfold relabelled. rewrite <- list_fmap_compose.
  by apply list_fmap_ext.
Qed.

(** X6.  What [find_fluid_fsi] hands to the fluid step right after
    [update_indicator], whenever it returns: two vectors of one length, the
    number of fluid cells that have every quadrature point inside the solid
    moved forward, times the number of quadrature points of a cell. *)
Theorem find_fluid_fsi_lengths_after_update (fsi : FSI double)
    (fsi_stress : list (SymmetricTensor double))
    (fsi_acceleration : list (Tensor1 double)) :
  let s := solid_solver fsi in
  let f := fluid_solver fsi in
  let displaced := moved_vertices dim true s in
  find_fluid_fsi dim (update_indicator dim fsi) = Ok (fsi_stress, fsi_acceleration) →
  length fsi_stress = length fsi_acceleration ∧
  length fsi_stress =
    length (filter (λ c, all_points_inside displaced (solid_cells s)
                           (n_q_points f) c = true)
                   (fluid_cells f)) * n_q_points f.
Proof.
  intros s f displaced Hret. apply fsi_cells_length in Hret.
  rewrite update_indicator_fluid in Hret.
  cbn [fluid_cells set_fluid_cells n_q_points] in Hret.
  rewrite immersed_after_update, length_fmap in Hret.
  cbn [solid_vertices solid_cells set_solid_vertices fst snd length] in Hret.
  fold s f displaced in Hret. lia.
Qed.

(** X7.  [find_fluid_fsi] interpolates nothing when there is nothing to
    work through: with every indicator 0, or with a quadrature that has no
    point, it returns two empty vectors, also where every interpolation on
    the solid would throw. *)
Theorem find_fluid_fsi_nothing_to_do (fsi : FSI double) :
  immersed_cells (fluid_solver fsi) = [] ∨ n_q_points (fluid_solver fsi) = 0 →
  find_fluid_fsi dim fsi = Ok ([], []).
Proof.
  intros Hnone. unfold find_fluid_fsi, immersed_cells in *.
  generalize ([] : list (list (list double)), [] : list (list double)).
  induction (fluid_cells (fluid_solver fsi)) as [|c cells IH]; intros out;
    [done|].
  cbn [for_each]. destruct (decide (indicator c.2 = 0%Z)) as [Hz|Hnz].
  - rewrite fsi_cell_skip by done. apply IH.
    rewrite filter_cons in Hnone. destruct Hnone as [Hnone|Hn]; [|by right].
    left. by rewrite decide_False in Hnone by (intros Hc; by apply Hc).
  - rewrite fsi_cell_points by done.
    destruct Hnone as [Hnone|Hn].
    { rewrite filter_cons, decide_True in Hnone by done. done. }
    rewrite Hn. cbn [for_range mbind result_bind]. apply IH. by right.
Qed.
End indicator_further.

(** ** Exceptions: where they come from and where they go *)

Section exceptions.
Context {double : Type} `{!Scalar double, !Opaque, !Collaborators double}.
Variable dim : nat.

(** A loop that throws has a body that threw. *)
Lemma for_each_Throw_inv {A St : Type} (body : A → St → result St) l s e :
  for_each body l s = Throw e → ∃ a s', a ∈ l ∧ body a s' = Throw e.
Proof.
  revert s. induction l as [|a l IH]; intros s; [done|].
  cbn [for_each]. destruct (body a s) as [s1|e1] eqn:E; cbn [mbind result_bind].
  - intros (a' & s' & Ha' & Hthrow)%IH. exists a', s'. split; [by right|done].
  - intros [= ->]. exists a, s. split; [left|done].
Qed.

Lemma for_range_Throw_inv {St : Type} (body : nat → St → result St) n s e :
  for_range body 0 n s = Throw e → ∃ k s', k < n ∧ body k s' = Throw e.
Proof.
  rewrite for_range_seq.
  intros (k & s' & Hk%elem_of_seq & Hthrow)%for_each_Throw_inv.
  exists k, s'. split; [lia|done].
Qed.

Lemma traction_throw_origin (fsi : FSI double) (e : exn) :
  let s := solid_solver fsi in
  let f := fluid_solver fsi in
  find_solid_bc dim fsi = Throw e →
  ∃ cf q, cf ∈ traction_faces dim fsi ∧ q < n_face_q_points s ∧
    let x := face_quadrature_point (solid_vertices s) cf.1 cf.2 q in
    fluid_point_value (fluid_cells f).*1 (present_solution f) x = Throw e ∨
    fluid_point_gradient (fluid_cells f).*1 (present_solution f) x = Throw e.
Proof.
  intros s f. unfold find_solid_bc. rewrite traction_cells_faces.
  intros (cf & t & Hcf & Hface)%for_each_Throw_inv.
  unfold traction_face in Hface.
  destruct (takes_traction fsi (face cf.1 cf.2)) eqn:Htakes; [|done].
  apply for_range_Throw_inv in Hface as (q & t' & Hq & Hpoint).
  exists cf, q. split.
  { apply list_elem_of_filter. split; [|done]. by apply takes_traction_spec. }
  split; [done|]. unfold traction_point in Hpoint. fold s f in Hpoint.
  cbn zeta in *.
  destruct (fluid_point_value _ _ _) as [v|e1]; cbn [mbind result_bind] in Hpoint;
    [|left; congruence].
  destruct (fluid_point_gradient _ _ _) as [g|e1];
    cbn [mbind result_bind] in Hpoint; [done|right; congruence].
Qed.

Lemma force_throw_origin (fsi : FSI double) (e : exn) :
  let s := solid_solver fsi in
  let f := fluid_solver fsi in
  find_fluid_fsi dim fsi = Throw e →
  ∃ c q, c ∈ immersed_cells f ∧ q < n_q_points f ∧
    let x := quadrature_point c.1 q in
    solid_point_value (solid_vertices s) (solid_cells s)
      (current_acceleration s) x = Throw e ∨
    ∃ i j, i < dim ∧ j < dim ∧
      dg_point_value (solid_vertices s) (solid_cells s) (stress s i j) x
      = Throw e.
Proof.
  intros s f. unfold find_fluid_fsi.
  intros (c & out & Hc & Hcell)%for_each_Throw_inv.
  destruct (decide (indicator c.2 = 0%Z)) as [Hz|Hnz].
  { by rewrite fsi_cell_skip in Hcell. }
  rewrite fsi_cell_points in Hcell by done.
  apply for_range_Throw_inv in Hcell as (q & out' & Hq & Hpoint).
  exists c, q. split; [by apply list_elem_of_filter|]. split; [done|].
  unfold fsi_point, solid_acc_at in Hpoint. fold s in Hpoint. cbn zeta in *.
  destruct (solid_point_value _ _ _ _) as [acc|e1];
    cbn [mbind mret result_bind result_ret] in Hpoint; [|left; congruence].
  right.
  destruct (solid_sigma_at dim s (quadrature_point c.1 q)) as [sg|e1] eqn:Hsig;
    cbn [mbind result_bind] in Hpoint; [done|].
  injection Hpoint as ->. unfold solid_sigma_at in Hsig.
  apply for_range_Throw_inv in Hsig as (i & t & Hi & Hrow).
  apply for_range_Throw_inv in Hrow as (j & t' & Hj & Hij).
  exists i, j. split; [done|]. split; [done|].
  destruct (dg_point_value _ _ _ _); cbn [mbind result_bind] in Hij;
    [done|congruence].
Qed.

(** X8.  When an interpolation of the fluid solution or of its gradient
    throws at a quadrature point of a solid face that takes a traction,
    [find_solid_bc] throws: no traction vector is returned, not even a
    partial one. *)
Theorem find_solid_bc_interpolation_throws (fsi : FSI double)
    (cf : SolidCell * nat) (q : nat) (e : exn) :
  let s := solid_solver fsi in
  let f := fluid_solver fsi in
  let x := face_quadrature_point (solid_vertices s) cf.1 cf.2 q in
  cf ∈ traction_faces dim fsi → q < n_face_q_points s →
  fluid_point_value (fluid_cells f).*1 (present_solution f) x = Throw e ∨
  fluid_point_gradient (fluid_cells f).*1 (present_solution f) x = Throw e →
  ∃ e', find_solid_bc dim fsi = Throw e'.
Proof.
  intros s f x Hcf Hq Hthrow. unfold find_solid_bc.
  rewrite traction_cells_faces.
  apply list_elem_of_filter in Hcf as [Htakes Hcf].
  apply for_each_throws with cf; [done|]. intros t.
  unfold traction_face. rewrite (proj2 (takes_traction_spec fsi _) Htakes).
  apply for_range_throws with q; [done|]. intros t'.
  unfold traction_point. fold s f x.
  destruct Hthrow as [Hval|Hgrad].
  - rewrite Hval. cbn [mbind result_bind]. eauto.
  - destruct (fluid_point_value _ _ x); cbn [mbind result_bind]; [|eauto].
    rewrite Hgrad. cbn [mbind result_bind]. eauto.
Qed.

(** X9.  [find_solid_bc] throws nothing of its own: an exception that
    leaves it is the one an interpolation of the fluid solution, or of its
    gradient, threw at a quadrature point of a face that takes a
    traction. *)
Theorem find_solid_bc_exception_origin (fsi : FSI double) (e : exn) :
  let s := solid_solver fsi in
  let f := fluid_solver fsi in
  find_solid_bc dim fsi = Throw e →
  ∃ cf q, cf ∈ traction_faces dim fsi ∧ q < n_face_q_points s ∧
    let x := face_quadrature_point (solid_vertices s) cf.1 cf.2 q in
    fluid_point_value (fluid_cells f).*1 (present_solution f) x = Throw e ∨
    fluid_point_gradient (fluid_cells f).*1 (present_solution f) x = Throw e.
Proof. apply traction_throw_origin. Qed.

(** X10.  [find_fluid_fsi] throws nothing of its own: an exception that
    leaves it is the one an interpolation on the solid threw (of the
    acceleration, or of a stress component (i, j) with i, j below [dim]) at
    a quadrature point of a fluid cell whose indicator is not 0. *)
Theorem find_fluid_fsi_exception_origin (fsi : FSI double) (e : exn) :
  let s := solid_solver fsi in
  let f := fluid_solver fsi in
  find_fluid_fsi dim fsi = Throw e →
  ∃ c q, c ∈ immersed_cells f ∧ q < n_q_points f ∧
    let x := quadrature_point c.1 q in
    solid_point_value (solid_vertices s) (solid_cells s)
      (current_acceleration s) x = Throw e ∨
    ∃ i j, i < dim ∧ j < dim ∧
      dg_point_value (solid_vertices s) (solid_cells s) (stress s i j) x
      = Throw e.
Proof. apply force_throw_origin. Qed.

End exceptions.

(** ** The fields of the test program *)

Section fields_any_arithmetic.
Context {double : Type} `{!Scalar double}.
Variable pow : double → double → double.

Lemma value_list_prefix (F : SigmaPMLField double) (points : list (Point double))
    (values : list double) (n : nat) :
  n ≤ length points → n ≤ length values →
  foldl (λ values i,
           match points !! i with
           | Some p => <[i := SigmaPMLField_value pow F p 0]> values
           | None => values
           end)
        values (seq 0 n) =
  ((λ p, SigmaPMLField_value pow F p 0) <$> take n points) ++ drop n values.
Proof.
  induction n as [|n IH]; intros Hp Hv; [done|].
  rewrite seq_S, foldl_app, IH by lia. cbn [foldl Nat.add].
  destruct (lookup_lt_is_Some_2 points n) as [p Hpn]; [lia|].
  destruct (lookup_lt_is_Some_2 values n) as [v Hvn]; [lia|].
  rewrite Hpn, (take_S_r _ _ _ Hpn), fmap_app, <- app_assoc.
  rewrite (drop_S _ _ _ Hvn).
  rewrite insert_app_r_alt by (rewrite length_fmap, length_take; lia).
  rewrite length_fmap, length_take.
  replace (n - n `min` length points) with 0 by lia. done.
Qed.

(** X12.  [value_list] on a vector [values] that has room for the points:
    entry [i] becomes [value(points[i])] for every index of [points],
    whatever the component asked for; the entries of [values] beyond the
    points stay as they were, and the length of [values] does not change. *)
Theorem SigmaPMLField_value_list_spec (F : SigmaPMLField double)
    (points : list (Point double)) (values : list double) (component : nat) :
  length points ≤ length values →
  let values' := SigmaPMLField_value_list pow F points values component in
  values' =
    ((λ p, SigmaPMLField_value pow F p component) <$> points)
    ++ drop (length points) values ∧
  length values' = length values.
Proof.
  intros Hlen values'. unfold values', SigmaPMLField_value_list.
  rewrite value_list_prefix by lia. rewrite firstn_all. split; [done|].
  rewrite length_app, length_fmap, length_drop. lia.
Qed.
End fields_any_arithmetic.

Section fields_exact.
Variable pow : Qc → Qc → Qc.
Variable exp : Qc → Qc.

Lemma lit_0_Qc : lit 0 0 = 0%Qc.
Proof. by apply Qc_is_canon. Qed.

Lemma SigmaPMLField_value_Qc (F : SigmaPMLField Qc) (p : Point Qc) (c : nat) :
  (∀ x, pow x (lit 4 0) = x ^ 4)%Qc →
  SigmaPMLField_value pow F p c =
  if bool_decide (lit 14 (-1) - PMLLength F < t1_get p 0)%Qc
  then (SigmaPMLMax F *
        ((t1_get p 0 + PMLLength F - lit 14 (-1)) / PMLLength F) ^ 4)%Qc
  else 0%Qc.
Proof.
  intros Hpow. unfold SigmaPMLField_value. cbn [flt fsub fadd fmul fdiv Qc_scalar].
  by rewrite Hpow, lit_0_Qc.
Qed.

Ltac in_Q :=
  unfold Qclt, Qcle, Qcminus, Qcplus, Qcopp, Qcmult, Q2Qc in *; cbn [this] in *;
  rewrite ?Qred_correct in *;
  change (this 0%Qc) with 0%Q in *; change (this 1%Qc) with 1%Q in *.

Lemma Qc_pos_nonzero (L : Qc) : (0 < L)%Qc → L ≠ 0%Qc.
Proof. intros HL ->. unfold Qclt in HL. cbn [this] in HL. lra. Qed.

(** The position in the layer, as a fraction of its length. *)
Lemma layer_fraction (a a' L : Qc) :
  (0 < L)%Qc → (0 < a)%Qc → (a ≤ a')%Qc →
  (0 < a / L)%Qc ∧ (a / L ≤ a' / L)%Qc.
Proof.
  intros HL Ha Haa'. unfold Qcdiv.
  assert (/ L * L = 1)%Qc as Hinv.
  { by apply Qcmult_inv_l, Qc_pos_nonzero. }
  generalize dependent (/ L)%Qc. intros iL Hinv.
  apply (f_equal this) in Hinv. cbn [this Qcmult Q2Qc] in Hinv.
  pose proof (Qred_correct (this iL * this L)) as Hred.
  rewrite Hinv in Hred. change (this 1%Qc) with 1%Q in Hred. clear Hinv.
  in_Q. split; nra.
Qed.

Lemma square_mono (v v' : Qc) : (0 ≤ v)%Qc → (v ≤ v')%Qc → (v * v ≤ v' * v')%Qc.
Proof. intros Hv Hvv'. in_Q. nra. Qed.

Lemma scale_mono (m w w' : Qc) : (0 ≤ m)%Qc → (w ≤ w')%Qc → (m * w ≤ m * w')%Qc.
Proof. intros Hm Hww'. in_Q. nra. Qed.

Lemma square_nonneg (u : Qc) : (0 ≤ u * u)%Qc.
Proof. in_Q. nra. Qed.

Lemma fourth_power_mono (m u u' : Qc) :
  (0 ≤ m)%Qc → (0 < u)%Qc → (u ≤ u')%Qc → (m * u ^ 4 ≤ m * u' ^ 4)%Qc.
Proof.
  intros Hm Hu Huu'. cbn [Qcpower].
  replace (u * (u * (u * (u * 1))))%Qc with (u * u * (u * u))%Qc by ring.
  replace (u' * (u' * (u' * (u' * 1))))%Qc with (u' * u' * (u' * u'))%Qc by ring.
  apply scale_mono; [done|]. apply square_mono; [apply square_nonneg|].
  apply square_mono; [|done]. by apply Qclt_le_weak.
Qed.

(** X13.  The profile of the damping coefficient [value], in exact
    arithmetic, for a layer of positive length and a maximum that is not
    negative, [pow(x, 4)] being the fourth power: it is 0 up to the start of
    the layer at [1.4 - PMLLength], it is [SigmaPMLMax] at the boundary
    x = 1.4, and it never decreases with x. *)
Theorem SigmaPMLField_value_profile (F : SigmaPMLField Qc) :
  (∀ x, pow x (lit 4 0) = x ^ 4)%Qc →
  (0 < PMLLength F)%Qc → (0 ≤ SigmaPMLMax F)%Qc →
  (∀ p c, (t1_get p 0 ≤ lit 14 (-1) - PMLLength F)%Qc →
          SigmaPMLField_value pow F p c = 0%Qc) ∧
  (∀ p c, t1_get p 0 = lit 14 (-1) →
          SigmaPMLField_value pow F p c = SigmaPMLMax F) ∧
  (∀ p p' c c', (t1_get p 0 ≤ t1_get p' 0)%Qc →
     (SigmaPMLField_value pow F p c ≤ SigmaPMLField_value pow F p' c')%Qc).
Proof.
  intros Hpow HL Hmax. split; [|split].
  - intros p c Hp. rewrite SigmaPMLField_value_Qc by done.
    rewrite bool_decide_eq_false_2; [done|]. by apply Qcle_not_lt.
  - intros p c Hp. rewrite SigmaPMLField_value_Qc by done. rewrite Hp.
    rewrite bool_decide_eq_true_2 by (clear Hp; in_Q; lra).
    replace (lit 14 (-1) + PMLLength F - lit 14 (-1))%Qc with (PMLLength F)
      by ring.
    unfold Qcdiv. rewrite Qcmult_inv_r by (by apply Qc_pos_nonzero).
    cbn [Qcpower]. ring.
  - intros p p' c c' Hpp'. rewrite !SigmaPMLField_value_Qc by done.
    set (b := lit 14 (-1)) in *. set (L := PMLLength F) in *.
    set (x := t1_get p 0) in *. set (x' := t1_get p' 0) in *.
    destruct (bool_decide (b - L < x)%Qc) eqn:Hx.
    + apply bool_decide_eq_true in Hx.
      rewrite bool_decide_eq_true_2 by (clear Hmax; in_Q; lra).
      destruct (layer_fraction (x + L - b) (x' + L - b) L) as [Hu Huu'];
        [done|clear Hmax; in_Q; lra..|].
      by apply fourth_power_mono.
    + destruct (bool_decide (b - L < x')%Qc) eqn:Hx'; [|apply Qcle_refl].
      apply bool_decide_eq_true in Hx'.
      destruct (layer_fraction (x' + L - b) (x' + L - b) L) as [Hu _];
        [done|clear Hmax; in_Q; lra|apply Qcle_refl|].
      cbn [Qcpower]. set (u := ((x' + L - b) / L)%Qc).
      replace (u * (u * (u * (u * 1))))%Qc with (u * u * (u * u))%Qc by ring.
      replace 0%Qc with (SigmaPMLMax F * 0)%Qc by ring.
      apply scale_mono; [done|]. apply square_nonneg.
Qed.

Lemma lit_nat_0 (dt t0 : Qc) : (t0 + lit (Z.of_nat 0) 0 * dt)%Qc = t0.
Proof. change (Z.of_nat 0) with 0%Z. rewrite lit_0_Qc. ring. Qed.

(** X14.  The boundary value [gaussian_pulse] is an increment: at a point
    of the inlet ([|x| < 1e-10]) and for component 0 it is
    [time_value(t) - time_value(t - dt)], so that, in exact arithmetic, its
    values at [n] consecutive times [t0 + dt], ..., [t0 + n dt] add up to
    [time_value(t0 + n dt) - time_value(t0)]. *)
Theorem gaussian_pulse_accumulates (dt t0 : Qc) (p : Point Qc) (n : nat) :
  (fabs (t1_get p 0) < lit 1 (-10))%Qc →
  foldl Qcplus 0%Qc
    ((λ k, gaussian_pulse pow exp dt p 0 (t0 + lit (Z.of_nat k) 0 * dt)%Qc)
       <$> seq 1 n) =
  (time_value pow exp (t0 + lit (Z.of_nat n) 0 * dt) - time_value pow exp t0)%Qc.
Proof.
  intros Hinlet. induction n as [|n IH].
  - rewrite lit_nat_0. cbn [seq fmap list_fmap foldl]. ring.
  - rewrite seq_S, fmap_app, foldl_app, IH. cbn [fmap list_fmap foldl Nat.add].
    unfold gaussian_pulse. cbn [flt fsub Qc_scalar] in *.
    rewrite (bool_decide_eq_true_2 _ Hinlet), bool_decide_eq_true_2 by done.
    cbn [andb].
    replace (t0 + lit (Z.of_nat (S n)) 0 * dt - dt)%Qc
      with (t0 + lit (Z.of_nat n) 0 * dt)%Qc by (rewrite lit_nat_succ; ring).
    ring.
Qed.
End fields_exact.

(** ** [point_in_mesh], and the points [find_fluid_fsi] interpolates at *)

Section mesh_queries.
Context {double : Type} `{!Scalar double, !Opaque, !Collaborators double}.
Variable dim : nat.

(** X15.  [point_in_mesh] answers true exactly when some cell of the mesh
    has the point inside: never on a mesh without cells, and on two lists
    of cells put together when it does on one of them, so that the answer
    does not depend on the order of the cells. *)
Theorem point_in_mesh_exists (vertices : list (Point double))
    (cells cells' : list SolidCell) (point : Point double) :
  (point_in_mesh vertices cells point = true ↔
   ∃ cell, cell ∈ cells ∧ point_inside vertices cell point = true) ∧
  point_in_mesh vertices [] point = false ∧
  point_in_mesh vertices (cells ++ cells') point =
    point_in_mesh vertices cells point || point_in_mesh vertices cells' point.
Proof.
  split; [apply point_in_mesh_contains|]. split; [done|].
  induction cells as [|cell cells IH]; [done|].
  cbn [app point_in_mesh]. by destruct (point_inside vertices cell point).
Qed.

(** X16.  Where the interpolations on the solid are defined at every point
    that [point_in_mesh] finds in the mesh, [find_fluid_fsi] called right
    after [update_indicator] can only fail through the motion of the mesh:
    it returns whenever the quadrature points found inside the solid moved
    forward are also inside the solid as [update_indicator] leaves it. *)
Theorem find_fluid_fsi_after_update_returns (fsi : FSI double) :
  let s := solid_solver fsi in
  let f := fluid_solver fsi in
  let displaced := moved_vertices dim true s in
  let restored := there_and_back dim s in
  (∀ vs cells u x, point_in_mesh vs cells x = true →
     returns (solid_point_value vs cells u x) ∧
     returns (dg_point_value vs cells u x)) →
  (∀ c q, c ∈ fluid_cells f → q < n_q_points f →
     point_in_mesh displaced (solid_cells s) (quadrature_point c.1 q) = true →
     point_in_mesh restored (solid_cells s) (quadrature_point c.1 q) = true) →
  returns (find_fluid_fsi dim (update_indicator dim fsi)).
Proof.
  intros s f displaced restored Hdefined Hcovered.
  destruct (find_fluid_fsi dim (update_indicator dim fsi)) as [force|e] eqn:Hforce;
    [by eexists|].
  exfalso. apply force_throw_origin in Hforce as (c' & q & Hc' & Hq & Hthrow).
  unfold immersed_cells in Hc'. rewrite update_indicator_fluid in Hc', Hq.
  cbn [fluid_cells n_q_points set_fluid_cells] in Hc', Hq.
  rewrite immersed_after_update in Hc'.
  apply list_elem_of_fmap in Hc' as (c & -> & Hc).
  apply list_elem_of_filter in Hc as [Hin Hc].
  cbn [solid_vertices solid_cells set_solid_vertices] in Hin.
  unfold all_points_inside in Hin.
  assert (point_in_mesh restored (solid_cells s) (quadrature_point c.1 q) = true)
    as Hq_in.
  { apply Hcovered; [done..|].
    rewrite forallb_forall in Hin. apply Hin, in_seq. lia. }
  rewrite update_indicator_solid in Hthrow.
  cbn [solid_vertices solid_cells current_acceleration stress set_solid_vertices
       update_cell fst] in Hthrow.
  fold s restored in Hthrow.
  destruct Hthrow as [Hacc|(i & j & _ & _ & Hsig)].
  - destruct (Hdefined restored (solid_cells s) (current_acceleration s) _ Hq_in)
      as [[v Hv] _]. congruence.
  - destruct (Hdefined restored (solid_cells s) (stress s i j) _ Hq_in)
      as [_ [v Hv]]. congruence.
Qed.
End mesh_queries.

(** ** [main] on binary64 *)

Section command_line_binary64.
Context `{!Harness float}.

(** X17.  On binary64, a run that has diverged does not pass: when the
    solver ends with a maximal velocity that is not a number, or that is
    infinite, the comparison [verror < 5e-2] is false, so that [main]
    writes the diagnostic of "Maximum velocity is incorrect!" and
    returns 1. *)
Theorem main_rejects_diverged (argv : list string) (params : AllParameters float)
    (vmax : float) :
  mpi_init argv = Ok () →
  read_parameters (infile_of argv) = Ok params →
  dimension params = 2 →
  scnsim_max_velocity params = Ok vmax →
  vmax = nan ∨ vmax = infinity ∨ vmax = neg_infinity →
  main argv =
    (1%Z,
     diagnostic
       (std_exception (exc_message_what "Maximum velocity is incorrect!"))).
Proof.
  intros Hmpi Hread Hdim Hrun Hvmax. unfold main, main_try.
  rewrite Hmpi. cbn [mbind result_bind]. rewrite Hread. cbn [mbind result_bind].
  rewrite decide_True by done. rewrite Hrun. cbn [mbind result_bind].
  assert (flt (fabs vmax) (lit 5 (-2)) = false) as ->; [|done].
  destruct Hvmax as [->|[->| ->]]; by vm_compute.
Qed.
End command_line_binary64.

(** * The further properties at work on the small configuration *)

Section instances_further.
#[local] Existing Instance Toy.opaque.

(** The strict interpolations of the small configuration are defined on
    the points of the mesh. *)
Lemma toy_defined_in_mesh {double : Type} `{!Scalar double}
    (vs : list (Point double)) (cells : list SolidCell) (u : Vector double)
    (x : Point double) :
  let C := Toy.collaborators (double := double) true in
  point_in_mesh (Collaborators0 := C) vs cells x = true →
  returns (solid_point_value (Collaborators := C) vs cells u x) ∧
  returns (dg_point_value (Collaborators := C) vs cells u x).
Proof.
  intros C Hin.
  assert (Toy.in_boxes vs cells x = true) as Hboxes.
  { induction cells as [|cell cells IH]; [done|].
    cbn [point_in_mesh point_inside C Toy.collaborators] in Hin.
    unfold Toy.in_boxes. cbn [existsb].
    destruct (Toy.in_box vs cell x); [done|]. by apply IH. }
  cbn [solid_point_value dg_point_value C Toy.collaborators].
  rewrite Hboxes. split; by eexists.
Qed.

(** X1 at work: three steps of a tenth, with fuel for four passes. *)
Lemma run_returns_after_whole_passes_witness :
  let C := Toy.collaborators (double := Qc) false in
  let fsi := Toy.state (double := Qc) (lit 0 0) [0; 0; 0; 0]%Z in
  ∃ final log,
    run (Collaborators0 := C) 2 4 fsi = Done (final, log) ∧
    ∃ k evs,
      k < 4 ∧
      log = prologue (global_refinement (parameters fsi)) ++ evs ∧
      is_cycles k true evs ∧
      time final = Nat.iter k increment (time fsi) ∧
      parameters final = parameters fsi ∧
      not_finished (time final) = false.
Proof.
  intros C fsi.
  destruct (run (Collaborators0 := C) 2 4 fsi) as [[final log]| |] eqn:Hrun;
    [|vm_compute in Hrun; discriminate..].
  exists final, log. split; [done|].
  exact (run_returns_after_whole_passes (Collaborators0 := C) 2 4 fsi final log
           Hrun).
Defined.

(** X2 at work: an end time of 0.25 and steps of a tenth give three passes,
    and the run ends past the end time. *)
Lemma run_pass_count_witness :
  let C := Toy.collaborators (double := Qc) false in
  let p := Toy.params (double := Qc) (lit 25 (-2)) (lit 1 (-1)) in
  ∃ final evs,
    run (Collaborators0 := C) 2 5
      (FSI_ctor (Toy.fluid [0; 0; 0; 0]%Z) (Toy.solid (lit 0 0)) p) =
      Done (final, prologue 0 ++ evs) ∧
    is_cycles 3 true evs ∧
    (end_time p < time_current (time final))%Qc.
Proof.
  intros C p.
  destruct (run_pass_count (Collaborators0 := C) 2
              (Toy.fluid [0; 0; 0; 0]%Z) (Toy.solid (lit 0 0)) p 3 5)
    as (final & evs & Hrun & Hcs & Ht & _).
  - apply toy_never_throws.
  - by vm_compute.
  - by vm_compute.
  - right. by vm_compute.
  - lia.
  - exists final, evs. split; [exact Hrun|]. split; [done|].
    rewrite Ht. by vm_compute.
Defined.

(** X3 at work: a step of zero. *)
Lemma run_without_progress_witness :
  let C := Toy.collaborators (double := Qc) false in
  run (Collaborators0 := C) 2 7
    (FSI_ctor (Toy.fluid [0; 0; 0; 0]%Z) (Toy.solid (lit 0 0))
       (Toy.params (double := Qc) (lit 1 0) (lit 0 0))) = OutOfFuel.
Proof.
  intros C.
  apply (run_without_progress (Collaborators0 := C) 2).
  - apply toy_never_throws.
  - by vm_compute.
  - by vm_compute.
Defined.

(** X4 at work: a quadrature without points marks the two cells, though
    they were not marked and the second is beside the solid; a solid
    without cells unmarks them. *)
Lemma update_indicator_degenerate_witness :
  let C := Toy.collaborators (double := Qc) true in
  let p := Toy.params (double := Qc) (lit 3 (-1)) (lit 1 (-1)) in
  let a := FSI_ctor (Toy.fluid_no_quadrature [0; 0]%Z) (Toy.solid (lit 0 0)) p in
  let b := FSI_ctor (Toy.fluid [1; 1]%Z) Toy.solid_no_cells p in
  Forall (λ c, indicator c.2 = 1%Z)
    (fluid_cells (fluid_solver (update_indicator (Collaborators0 := C) 2 a))) ∧
  Forall (λ c, indicator c.2 = 0%Z)
    (fluid_cells (fluid_solver (update_indicator (Collaborators0 := C) 2 b))).
Proof.
  intros C p a b. split.
  - apply (update_indicator_degenerate (Collaborators0 := C) 2 a). reflexivity.
  - apply (update_indicator_degenerate (Collaborators0 := C) 2 b);
      [reflexivity|vm_compute; lia].
Defined.

(** X6 at work: the solid at rest covers the first fluid cell, which has
    two quadrature points. *)
Lemma find_fluid_fsi_lengths_after_update_witness :
  let C := Toy.collaborators (double := Qc) true in
  let fsi := Toy.state (double := Qc) (lit 0 0) [0; 0; 0; 0]%Z in
  ∃ fsi_stress fsi_acceleration,
    find_fluid_fsi (Collaborators0 := C) 2 (update_indicator (Collaborators0 := C) 2 fsi)
      = Ok (fsi_stress, fsi_acceleration) ∧
    length fsi_stress = length fsi_acceleration ∧
    length fsi_stress = 2.
Proof.
  intros C fsi.
  destruct (find_fluid_fsi (Collaborators0 := C) 2
              (update_indicator (Collaborators0 := C) 2 fsi))
    as [[fsi_stress fsi_acceleration]|] eqn:Hret;
    [|vm_compute in Hret; discriminate].
  exists fsi_stress, fsi_acceleration. split; [done|].
  destruct (find_fluid_fsi_lengths_after_update (Collaborators0 := C) 2 fsi
              fsi_stress fsi_acceleration Hret) as [Hsame Hlen].
  split; [done|]. rewrite Hlen. by vm_compute.
Defined.

(** X7 at work: no cell is marked, and the solid is away from where its
    fields could be interpolated. *)
Lemma find_fluid_fsi_nothing_to_do_witness :
  let C := Toy.collaborators (double := Qc) true in
  let fsi := Toy.state (double := Qc) (lit 2 0) [0; 0; 0; 0]%Z in
  find_fluid_fsi (Collaborators0 := C) 2 fsi = Ok ([], []).
Proof.
  intros C fsi.
  apply (find_fluid_fsi_nothing_to_do (Collaborators0 := C) 2 fsi).
  left. by vm_compute.
Defined.

(** X8 at work: a fluid without cells, so that no point of the solid
    boundary is in the fluid mesh. *)
Lemma find_solid_bc_interpolation_throws_witness :
  let C := Toy.collaborators (double := Qc) true in
  let fsi := FSI_ctor (Toy.fluid []) (Toy.solid (lit 0 0))
               (Toy.params (double := Qc) (lit 3 (-1)) (lit 1 (-1))) in
  ∃ e, find_solid_bc (Collaborators0 := C) 2 fsi = Throw e.
Proof.
  intros C fsi.
  apply (find_solid_bc_interpolation_throws (Collaborators0 := C) 2 fsi
           (Toy.unit_cell, 1) 0 Toy.not_available).
  - apply list_elem_of_filter. split; [split; by vm_compute|].
    apply (list_elem_of_lookup_2 _ 1). by vm_compute.
  - vm_compute. lia.
  - left. by vm_compute.
Defined.

(** X9 at work on the same state. *)
Lemma find_solid_bc_exception_origin_witness :
  let C := Toy.collaborators (double := Qc) true in
  let fsi := FSI_ctor (Toy.fluid []) (Toy.solid (lit 0 0))
               (Toy.params (double := Qc) (lit 3 (-1)) (lit 1 (-1))) in
  let s := solid_solver fsi in
  let f := fluid_solver fsi in
  ∃ cf q, cf ∈ traction_faces 2 fsi ∧ q < n_face_q_points s ∧
    let x := face_quadrature_point (Collaborators := C) (solid_vertices s)
               cf.1 cf.2 q in
    fluid_point_value (Collaborators := C) (fluid_cells f).*1
      (present_solution f) x = Throw Toy.not_available ∨
    fluid_point_gradient (Collaborators := C) (fluid_cells f).*1
      (present_solution f) x = Throw Toy.not_available.
Proof.
  intros C fsi s f.
  apply (find_solid_bc_exception_origin (Collaborators0 := C) 2 fsi
           Toy.not_available).
  by vm_compute.
Defined.

(** X10 at work: the second fluid cell is marked and lies beside the
    solid. *)
Lemma find_fluid_fsi_exception_origin_witness :
  let C := Toy.collaborators (double := Qc) true in
  let fsi := Toy.state (double := Qc) (lit 0 0) [0; 1; 0; 0]%Z in
  let s := solid_solver fsi in
  let f := fluid_solver fsi in
  ∃ c q, c ∈ immersed_cells f ∧ q < n_q_points f ∧
    let x := quadrature_point (Collaborators := C) c.1 q in
    solid_point_value (Collaborators := C) (solid_vertices s) (solid_cells s)
      (current_acceleration s) x = Throw Toy.not_available ∨
    ∃ i j, i < 2 ∧ j < 2 ∧
      dg_point_value (Collaborators := C) (solid_vertices s) (solid_cells s)
        (stress s i j) x = Throw Toy.not_available.
Proof.
  intros C fsi s f.
  apply (find_fluid_fsi_exception_origin (Collaborators0 := C) 2 fsi
           Toy.not_available).
  by vm_compute.
Defined.

(** X11 at work: on the fluid without cells the first pass of [run]
    throws in [find_solid_bc], and [run] ends there. *)
Lemma run_exception_propagates_witness :
  let C := Toy.collaborators (double := Qc) true in
  let start := FSI_ctor (Toy.fluid []) (Toy.solid (lit 0 0))
                 (Toy.params (double := Qc) (lit 3 (-1)) (lit 1 (-1))) in
  run (Collaborators0 := C) 2 3 start = Uncaught Toy.not_available.
Proof.
  intros C start.
  apply (proj2 (run_exception_propagates (Collaborators0 := C) 2 3 start
                  Toy.not_available)).
  right. exists 0, (start, prologue 0), (start, prologue 0).
  split; [lia|]. repeat split; by vm_compute.
Defined.

(** X12 at work, on the layer of the test program (length 1.2, maximum
    340000): two points, and a vector of three values. *)
Lemma SigmaPMLField_value_list_spec_witness :
  let F := {| SigmaPMLMax := lit 340000 0; PMLLength := lit 12 (-1) |} in
  let points := [[lit 1 (-1); lit 0 0]; [lit 14 (-1); lit 2 (-1)]] in
  let values := [lit 7 0; lit 7 0; lit 7 0] in
  let values' := SigmaPMLField_value_list Qc_pow F points values 0 in
  values' =
    ((λ p, SigmaPMLField_value Qc_pow F p 0) <$> points)
    ++ drop (length points) values ∧
  length values' = length values.
Proof.
  intros F points values.
  apply (SigmaPMLField_value_list_spec Qc_pow F points values 0).
  vm_compute. lia.
Defined.

(** X13 at work on the same layer. *)
Lemma SigmaPMLField_value_profile_witness :
  let F := {| SigmaPMLMax := lit 340000 0; PMLLength := lit 12 (-1) |} in
  (∀ p c, (t1_get p 0 ≤ lit 14 (-1) - PMLLength F)%Qc →
          SigmaPMLField_value Qc_pow F p c = 0%Qc) ∧
  (∀ p c, t1_get p 0 = lit 14 (-1) →
          SigmaPMLField_value Qc_pow F p c = SigmaPMLMax F) ∧
  (∀ p p' c c', (t1_get p 0 ≤ t1_get p' 0)%Qc →
     (SigmaPMLField_value Qc_pow F p c ≤ SigmaPMLField_value Qc_pow F p' c')%Qc).
Proof.
  intros F.
  apply (SigmaPMLField_value_profile Qc_pow F).
  - intros x. reflexivity.
  - by vm_compute.
  - by vm_compute.
Defined.

(** X14 at work: three steps of 1e-7 at the inlet, with a polynomial in
    the place of [exp]. *)
Lemma gaussian_pulse_accumulates_witness :
  let exp := λ x : Qc, (1 + x + x * x / lit 2 0)%Qc in
  let dt := lit 1 (-7) in
  let p := [lit 0 0; lit 1 (-1)] in
  foldl Qcplus 0%Qc
    ((λ k, gaussian_pulse Qc_pow exp dt p 0 (0 + lit (Z.of_nat k) 0 * dt)%Qc)
       <$> seq 1 3) =
  (time_value Qc_pow exp (0 + lit (Z.of_nat 3) 0 * dt) - time_value Qc_pow exp 0)%Qc.
Proof.
  intros exp dt p.
  apply (gaussian_pulse_accumulates Qc_pow exp dt 0%Qc p 3).
  by vm_compute.
Defined.

(** X16 at work: the solid moved forward by a tenth covers the quadrature
    points of the first fluid cell only, which the solid put back covers
    too. *)
Lemma find_fluid_fsi_after_update_returns_witness :
  let C := Toy.collaborators (double := Qc) true in
  let fsi := Toy.state (double := Qc) (lit 1 (-1)) [0; 0; 0; 0]%Z in
  returns (find_fluid_fsi (Collaborators0 := C) 2
             (update_indicator (Collaborators0 := C) 2 fsi)).
Proof.
  intros C fsi.
  apply (find_fluid_fsi_after_update_returns (Collaborators0 := C) 2 fsi).
  - intros vs cells u x. apply toy_defined_in_mesh.
  - intros c q Hc Hq. vm_compute in Hc.
    destruct q as [|[|q]]; [| |vm_compute in Hq; lia];
      repeat (apply elem_of_cons in Hc as [->|Hc]; [by vm_compute|]);
      by apply elem_of_nil in Hc.
Defined.

(** X17 at work: the solver ends with a maximal velocity that is not a
    number. *)
Lemma main_rejects_diverged_witness :
  main (Harness0 := Toy.harness_ending_with nan) ["test"%string] =
    (1%Z, diagnostic (std_exception "Maximum velocity is incorrect!")).
Proof.
  apply (main_rejects_diverged (Harness0 := Toy.harness_ending_with nan)
           ["test"%string]
           (Toy.params (lit 3 (-1)) (lit 1 (-1))) nan);
    [reflexivity..|by left].
Defined.
End instances_further.
